(** * waterline-nedb: the criteria translator of [lib/query.js]

    A shallow embedding of [lib/query.js] (the [Query] constructor and its
    prototype methods [normalizeCriteria], [parseWhere], [parseClause],
    [parseExpression], [parseValue], [parseSort], [caseInsensitive]) and
    the properties of the translation.

    Layout:
    - [JS]: the JavaScript values the translator receives and builds,
      completions (a result or a thrown error), strings, Numbers,
      [parseInt] and [parseFloat];
    - [Waterline]: the schema the translator is given;
    - [Lodash]: the lodash functions the file calls through [_], with
      what the versions of lodash differ in as a parameter;
    - [Query]: the functions of [lib/query.js], one definition each;
    - the properties, grouped by the function they are about. *)

From Stdlib Require Import List String Ascii ZArith Bool Lia.
From Stdlib Require Import SpecFloat DecimalString DecimalNat.
Import ListNotations.
Local Open Scope string_scope.
Local Open Scope Z_scope.

(* ===================================================================== *)
(** * JavaScript values and built-ins *)
(* ===================================================================== *)

Module JS.

(** ** Completions

    A call either returns normally or throws.  The two errors the
    translator can raise are a [ReferenceError] (an identifier that no
    scope binds) and a [TypeError] (calling something that is not a
    function, or reading a property of [undefined]). *)

Inductive error : Type :=
| ReferenceError (ident : string)
| TypeError (msg : string).

Inductive completion (A : Type) : Type :=
| Normal (a : A)
| Throw (e : error).

Arguments Normal {A} a.
Arguments Throw {A} e.

Definition bind {A B : Type} (c : completion A) (k : A -> completion B)
  : completion B :=
  match c with
  | Normal a => k a
  | Throw e => Throw e
  end.

Notation "x <- c ;; k" := (bind c (fun x => k))
  (at level 61, c at next level, right associativity).

Definition returns {A : Type} (c : completion A) : bool :=
  match c with Normal _ => true | Throw _ => false end.

(** ** Numbers

    A Number is an IEEE 754 binary64 value: [spec_float] with a 53 bit
    mantissa and [emax = 1024].  [num z] is the Number of the integer
    [z], rounded to nearest, ties to even. *)

Definition number : Type := spec_float.

Definition prec : Z := 53.
Definition emax : Z := 1024.

Definition NaN : number := S754_nan.

Definition num (z : Z) : number := binary_normalize prec emax z 0 false.

(** The Number of [sign * n / d] for [0 <= n] and [0 < d], correctly
    rounded: the quotient is taken with at least 64 significant bits and
    the remainder is folded into a sticky last bit. *)
Definition num_of_ratio (neg : bool) (n d : Z) : number :=
  if n =? 0 then S754_zero neg
  else
    let s := Z.max 0 (64 + Z.log2 d - Z.log2 n) in
    let q := (n * 2 ^ s) / d in
    let sticky := if (n * 2 ^ s) mod d =? 0 then 0 else 1 in
    let m := 2 * q + sticky in
    binary_normalize prec emax (if neg then - m else m) (- (s + 1)) neg.

(** The integer a Number is, when it is one. *)
Definition integer_of (x : number) : option Z :=
  match x with
  | S754_zero _ => Some 0
  | S754_finite sign m e =>
      let magnitude :=
        if 0 <=? e then Some (Z.pos m * 2 ^ e)
        else if Z.pos m mod 2 ^ (- e) =? 0 then Some (Z.pos m / 2 ^ (- e))
        else None in
      match magnitude with
      | Some z => Some (if sign then - z else z)
      | None => None
      end
  | _ => None
  end.

(** A Number that is a valid array length: an integer from 0 to
    [2^53 - 1]. *)
Definition valid_length (x : number) : option Z :=
  match integer_of x with
  | Some z => if (0 <=? z) && (z <=? 2 ^ 53 - 1) then Some z else None
  | None => None
  end.

(** [x === y] on Numbers. *)
Definition num_eqb (x y : number) : bool := SFeqb x y.

(** ** Strings

    A string is the sequence of the bytes of its UTF-8 encoding; the
    characters the translator inspects are all ASCII. *)

Definition bytes (l : list Z) : string :=
  fold_right (fun n s => String (ascii_of_nat (Z.to_nat n)) s) EmptyString l.

Definition code (c : ascii) : Z := Z.of_nat (nat_of_ascii c).

Definition lower_ascii (c : ascii) : ascii :=
  if (65 <=? code c) && (code c <=? 90)
  then ascii_of_nat (nat_of_ascii c + 32)%nat else c.

(** [s.toLowerCase()].  Exact on ASCII.  The source only compares the
    result with ASCII literals, and U+212A (KELVIN SIGN, bytes E2 84 AA)
    is the one code point outside ASCII whose lower case is an ASCII
    letter ([k]); every other code point outside ASCII is left as it
    is. *)
Fixpoint toLowerCase (s : string) : string :=
  match s with
  | EmptyString => EmptyString
  | String c1 r1 =>
      match r1 with
      | String c2 (String c3 r3) =>
          if (code c1 =? 226) && (code c2 =? 132) && (code c3 =? 170)
          then String "k" (toLowerCase r3)
          else String (lower_ascii c1) (toLowerCase r1)
      | _ => String (lower_ascii c1) (toLowerCase r1)
      end
  end.

(** [s.replace(/[class]/g, f($&))]: every character of [s] that [p]
    accepts is replaced by [f] of it. *)
Fixpoint replace_chars (p : ascii -> bool) (f : ascii -> string)
  (s : string) : string :=
  match s with
  | EmptyString => EmptyString
  | String c r =>
      (if p c then f c else String c EmptyString) ++ replace_chars p f r
  end.

Definition char_in (set : string) (c : ascii) : bool :=
  existsb (Ascii.eqb c) (list_ascii_of_string set).

Definition is_digit (c : ascii) : bool := (48 <=? code c) && (code c <=? 57).

(** [s.split(sep)] for a one character separator. *)
Fixpoint split (sep : ascii) (s : string) : list string :=
  match s with
  | EmptyString => [EmptyString]
  | String c r =>
      if Ascii.eqb c sep then EmptyString :: split sep r
      else match split sep r with
           | [] => [String c EmptyString]
           | h :: t => String c h :: t
           end
  end.

Definition string_of_nat (n : nat) : string :=
  NilEmpty.string_of_uint (Nat.to_uint n).

(** ** Anchored patterns

    The two regular expressions of [parseValue] are anchored sequences of
    character classes with bounded repetition.  In both, a class that may
    repeat a variable number of times is followed by a character outside
    it, so matching each item greedily decides the match. *)

Record item : Type :=
  Item { accepts : ascii -> bool; at_least : nat; at_most : nat }.

Fixpoint take_while (p : ascii -> bool) (limit : nat) (s : string)
  : nat * string :=
  match limit, s with
  | S limit', String c r =>
      if p c then let '(n, rest) := take_while p limit' r in (S n, rest)
      else (O, s)
  | _, _ => (O, s)
  end.

Fixpoint test (pattern : list item) (s : string) : bool :=
  match pattern with
  | [] => match s with EmptyString => true | _ => false end
  | i :: pattern' =>
      let '(n, rest) := take_while (accepts i) (at_most i) s in
      (at_least i <=? n)%nat && test pattern' rest
  end.

Definition digits (n : nat) : item := Item is_digit n n.
Definition digits_between (lo hi : nat) : item := Item is_digit lo hi.
Definition lit (c : ascii) : item := Item (Ascii.eqb c) 1 1.

(** [/^\d{4}-\d{2}-\d{2}T\d{2}\:\d{2}\:\d{2}\.\d{3}Z$/] *)
Definition iso_timestamp : list item :=
  [digits 4; lit "-"; digits 2; lit "-"; digits 2; lit "T";
   digits 2; lit ":"; digits 2; lit ":"; digits 2; lit "."; digits 3;
   lit "Z"].

(** [/^[1-9]\d{3}-\d{1,2}-\d{1,2}$/] *)
Definition calendar_date : list item :=
  [Item (fun c => (49 <=? code c) && (code c <=? 57)) 1 1; digits 3;
   lit "-"; digits_between 1 2; lit "-"; digits_between 1 2].

(** ** [parseInt] and [parseFloat] *)

(** The white space and line terminators that [parseInt] and
    [parseFloat] skip (StrWhiteSpaceChar), as UTF-8 byte sequences. *)
Definition white_space : list string :=
  [bytes [9]; bytes [10]; bytes [11]; bytes [12]; bytes [13]; bytes [32];
   bytes [194; 160]; bytes [225; 154; 128];
   bytes [226; 128; 128]; bytes [226; 128; 129]; bytes [226; 128; 130];
   bytes [226; 128; 131]; bytes [226; 128; 132]; bytes [226; 128; 133];
   bytes [226; 128; 134]; bytes [226; 128; 135]; bytes [226; 128; 136];
   bytes [226; 128; 137]; bytes [226; 128; 138];
   bytes [226; 128; 168]; bytes [226; 128; 169]; bytes [226; 128; 175];
   bytes [226; 129; 159]; bytes [227; 128; 128]; bytes [239; 187; 191]].

Fixpoint strip_prefix (p s : string) : option string :=
  match p, s with
  | EmptyString, _ => Some s
  | String a p', String b s' =>
      if Ascii.eqb a b then strip_prefix p' s' else None
  | _, EmptyString => None
  end.

Fixpoint strip_any (ps : list string) (s : string) : option string :=
  match ps with
  | [] => None
  | p :: ps' =>
      match strip_prefix p s with
      | Some r => Some r
      | None => strip_any ps' s
      end
  end.

Fixpoint trim_start_fuel (fuel : nat) (s : string) : string :=
  match fuel with
  | O => s
  | S fuel' =>
      match strip_any white_space s with
      | Some r => trim_start_fuel fuel' r
      | None => s
      end
  end.

(** Every white space sequence is at least one byte long, so the length
    of the string bounds the number of sequences to skip. *)
Definition trimStart (s : string) : string :=
  trim_start_fuel (String.length s) s.

(** The value of a character as a digit: [0-9], then [a-z] or [A-Z]
    from ten. *)
Definition digit_value (c : ascii) : option Z :=
  let n := code c in
  if (48 <=? n) && (n <=? 57) then Some (n - 48)
  else if (97 <=? n) && (n <=? 122) then Some (n - 87)
  else if (65 <=? n) && (n <=? 90) then Some (n - 55)
  else None.

(** The longest prefix of radix-[R] digits: whether it is non-empty, its
    value with [acc] as the digits read so far, and what follows it. *)
Fixpoint read_digits (R : Z) (s : string) (acc : Z) : bool * Z * string :=
  match s with
  | EmptyString => (false, acc, s)
  | String c r =>
      match digit_value c with
      | Some d =>
          if d <? R
          then let '(_, v, rest) := read_digits R r (acc * R + d) in
               (true, v, rest)
          else (false, acc, s)
      | None => (false, acc, s)
      end
  end.

Definition starts_with (p s : string) : bool :=
  match strip_prefix p s with Some _ => true | None => false end.

Definition drop_sign (s : string) : bool * string :=
  match s with
  | String "-" r => (true, r)
  | String "+" r => (false, r)
  | _ => (false, s)
  end.

(** [parseInt(string, radix)] of ECMAScript, [radix = 0] standing for an
    absent radix: leading white space is skipped, a sign is read, an
    absent radix means ten unless the rest starts with [0x] or [0X],
    which selects sixteen (a radix of sixteen strips that prefix too),
    and the longest prefix of digits is the value; no digit gives NaN. *)
Definition parseInt_radix (radix : Z) (s : string) : number :=
  let S0 := trimStart s in
  let '(neg, S1) := drop_sign S0 in
  if negb (radix =? 0) && ((radix <? 2) || (36 <? radix)) then NaN
  else
    let stripPrefix := (radix =? 0) || (radix =? 16) in
    let R := if radix =? 0 then 10 else radix in
    let hex := stripPrefix && (starts_with "0x" S1 || starts_with "0X" S1) in
    let R := if hex then 16 else R in
    let S2 := if hex then substring 2 (String.length S1 - 2)%nat S1 else S1 in
    let '(some, mathInt, _) := read_digits R S2 0 in
    if some
    then binary_normalize prec emax (if neg then - mathInt else mathInt) 0 neg
    else NaN.

(** [parseInt(val)], as the source calls it: no radix. *)
Definition parseInt (s : string) : number := parseInt_radix 0 s.

(** [parseFloat(val)]: the longest prefix that is a StrDecimalLiteral,
    NaN when there is none. *)
Definition read_exponent (s : string) : Z :=
  match s with
  | String c r =>
      if Ascii.eqb c "e" || Ascii.eqb c "E" then
        let '(neg, r') :=
          match r with
          | String "-" t => (true, t)
          | String "+" t => (false, t)
          | _ => (false, r)
          end in
        let '(some, e, _) := read_digits 10 r' 0 in
        if some then (if neg then - e else e) else 0
      else 0
  | EmptyString => 0
  end.

Definition parseFloat (s : string) : number :=
  let '(neg, S1) := drop_sign (trimStart s) in
  if starts_with "Infinity" S1 then S754_infinity neg
  else
    let '(some_int, int_part, after_int) := read_digits 10 S1 0 in
    let '(some_frac, mantissa, after_frac, frac_len) :=
      match after_int with
      | String "." r =>
          let '(some, m, rest) := read_digits 10 r int_part in
          (some, m, rest, Z.of_nat (String.length r - String.length rest)%nat)
      | _ => (false, int_part, after_int, 0)
      end in
    if negb (some_int || some_frac) then NaN
    else
      let e := read_exponent after_frac - frac_len in
      if 0 <=? e then num_of_ratio neg (mantissa * 10 ^ e) 1
      else num_of_ratio neg mantissa (10 ^ (- e)).

(** ** Values *)

(** A Date object, by the constructor call that made it: [new Date(text)]
    or [new Date(year, month, day)].  Parsing [text] and the local time
    zone belong to the engine. *)
Inductive date : Type :=
| DateParse (text : string)
| DateLocal (year month day : Z).

(** A plain object is the list of its own enumerable properties in
    enumeration order: the names that are array indices first, in
    ascending order, then the other names in the order of insertion. *)
#[warnings="-register-all"]
Inductive value : Type :=
| Undefined
| Null
| Bool (b : bool)
| Num (x : number)
| Str (s : string)
| Arr (items : list value)
| Obj (props : list (string * value))
| RegExp (source flags : string)
| Date (d : date).

(** The key an iteratee receives: a property name, or the index of an
    array element (a Number). *)
Inductive key : Type :=
| KStr (name : string)
| KIdx (index : nat).

(** The property name a key denotes: [obj[key]] converts a Number to its
    decimal text. *)
Definition key_name (k : key) : string :=
  match k with
  | KStr s => s
  | KIdx i => string_of_nat i
  end.

(** [key === lit] for a string literal: a Number is never equal. *)
Definition key_is (k : key) (lit : string) : bool :=
  match k with
  | KStr s => String.eqb s lit
  | KIdx _ => false
  end.

Fixpoint assoc {A : Type} (k : string) (l : list (string * A)) : option A :=
  match l with
  | [] => None
  | (k', v) :: l' => if String.eqb k k' then Some v else assoc k l'
  end.

(** The array index a property name is: the decimal text, without
    leading zeros, of an integer from 0 to [2^32 - 2]. *)
Definition array_index (name : string) : option Z :=
  let '(some, v, rest) := read_digits 10 name 0 in
  if some && String.eqb rest ""
     && (String.eqb name "0" || negb (starts_with "0" name))
     && (v <=? 4294967294)
  then Some v else None.

(** The value of an existing property is replaced where it stands. *)
Fixpoint update {A : Type} (l : list (string * A)) (k : string) (v : A)
  : option (list (string * A)) :=
  match l with
  | [] => None
  | (k', v') :: l' =>
      if String.eqb k k' then Some ((k', v) :: l')
      else match update l' k v with
           | Some r => Some ((k', v') :: r)
           | None => None
           end
  end.

(** A new property whose name is the array index [i] goes after the
    indices below [i] and before everything else. *)
Fixpoint insert_index {A : Type} (l : list (string * A)) (i : Z)
  (k : string) (v : A) : list (string * A) :=
  match l with
  | [] => [(k, v)]
  | (k', v') :: l' =>
      match array_index k' with
      | Some j =>
          if j <? i then (k', v') :: insert_index l' i k v
          else (k, v) :: l
      | None => (k, v) :: l
      end
  end.

(** [obj[k] = v] on a property list, for a name other than
    [__proto__]: an existing property keeps its place; a new one whose
    name is an array index is enumerated among the indices, in ascending
    order and before the other names; any other new one goes last. *)
Definition assign {A : Type} (l : list (string * A)) (k : string) (v : A)
  : list (string * A) :=
  match update l k v with
  | Some r => r
  | None =>
      match array_index k with
      | Some i => insert_index l i k v
      | None => (l ++ [(k, v)])%list
      end
  end.

(** [target[k] = v] on an object the translator has made.  Assigning to
    [__proto__] adds no property: it sets the prototype, which is not
    part of a value here.  On a RegExp the assignment adds an expando
    property, which this model of RegExp values does not record. *)
Definition set (target : value) (k : string) (v : value) : value :=
  if String.eqb k "__proto__" then target
  else match target with
       | Obj props => Obj (assign props k v)
       | other => other
       end.

(** The elements of an array as properties, under their indices. *)
Definition indexed (items : list value) : list (string * value) :=
  combine (List.map string_of_nat (seq 0 (List.length items))) items.

(** The enumerable properties of [v] as a prototype: [None] when [v] is
    a primitive that cannot be one. *)
Definition enumerable (v : value) : option (list (string * value)) :=
  match v with
  | Obj props => Some props
  | Arr items => Some (indexed items)
  | Null | RegExp _ _ | Date _ => Some []
  | Undefined | Bool _ | Num _ | Str _ => None
  end.

(** An object the translator is filling, with the enumerable properties
    it inherits: none, until an assignment to [__proto__] gives it
    another prototype. *)
Record derived : Type := Derived {
  own : value;
  inherited : list (string * value)
}.

(** [target[k] = v] where the prototype matters afterwards: assigning an
    object or null to [__proto__] replaces the prototype, assigning a
    primitive to it does nothing, and every other name is assigned as
    [set] does. *)
Definition put (target : derived) (k : string) (v : value) : derived :=
  if String.eqb k "__proto__" then
    match enumerable v with
    | Some props => Derived (own target) props
    | None => target
    end
  else Derived (set (own target) k v) (inherited target).

(** [x === y] against a primitive [y].  Objects are equal only to
    themselves, and no object of the input is one of the literals the
    source compares with. *)
Definition strict_equals (x y : value) : bool :=
  match x, y with
  | Undefined, Undefined => true
  | Null, Null => true
  | Bool a, Bool b => Bool.eqb a b
  | Num a, Num b => num_eqb a b
  | Str a, Str b => String.eqb a b
  | _, _ => false
  end.

(** [array.indexOf(x)], [-1] when absent. *)
Fixpoint indexOf_from (l : list value) (x : value) (i : Z) : Z :=
  match l with
  | [] => -1
  | y :: l' => if strict_equals y x then i else indexOf_from l' x (i + 1)
  end.

Definition indexOf (l : list value) (x : value) : Z := indexOf_from l x 0.

(** [new RegExp(pattern, flags)] *)
Definition new_RegExp (pattern flags : string) : value := RegExp pattern flags.

(** ** Identifier resolution

    The identifiers bound where the functions of [lib/query.js] run: the
    two variables of the module ([_] and [Query]), the names of the
    CommonJS module wrapper, and the ECMAScript globals the file uses.
    Reading any other identifier throws a ReferenceError. *)
Definition scope : list string :=
  ["_"; "Query"; "module"; "exports"; "require"; "__filename"; "__dirname";
   "RegExp"; "Date"; "parseInt"; "parseFloat"; "undefined"].

Definition resolve (ident : string) : completion unit :=
  if existsb (String.eqb ident) scope then Normal tt
  else Throw (ReferenceError ident).

End JS.


(* ===================================================================== *)
(** * The schema of a collection *)
(* ===================================================================== *)

Module Waterline.
Import JS.

(** [this.schema]: a mapping from field name to an attribute with a
    [type], which a definition may leave out. *)

Record attribute : Type := Attribute { type : option string }.

Definition Schema : Type := list (string * attribute).

End Waterline.

(* ===================================================================== *)
(** * The lodash functions of [lib/query.js] *)
(* ===================================================================== *)

Module Lodash.
Import JS Waterline.

(** ** Versions

    [lib/query.js] loads whatever lodash is installed.  What the
    versions differ in, where the file can tell:
    - [binds_this]: [_.reduce] takes a fourth argument and calls the
      iteratee with it as [this] (lodash 2 and 3; lodash 4 ignores the
      argument, and [this] is undefined in the iteratee);
    - [follows_path]: what [_.has(schema, name)] answers for a [name]
      that is no own key of the schema and has a [.] or a [[] in it.
      lodash 3 and 4 read such a name as a path into the schema, each in
      its own way; lodash 2 looks at own keys only and answers no;
    - [odd_length]: the number of indices [_.reduce] goes through on an
      object whose [length] is a Number but no valid array length, such
      as [-1] or [2.5]; [None] when the object is gone through by its
      properties.  lodash 3 and 4 do the latter; lodash 2 compares the
      index with any Number (and with a length that no index reaches,
      as [Infinity], it goes on until the iteratee throws: a call that
      does not return is outside what a version describes);
    - [extend_inherited]: [_.extend] copies the inherited enumerable
      properties of its source after the own ones (lodash 4, where it is
      [_.assignIn]; before, it is [_.assign]). *)
Record version : Type := Version {
  binds_this : bool;
  follows_path : Schema -> string -> bool;
  odd_length : number -> option Z;
  extend_inherited : bool
}.

Definition isNull (v : value) : bool :=
  match v with Null => true | _ => false end.

Definition isString (v : value) : bool :=
  match v with Str _ => true | _ => false end.

Definition isArray (v : value) : bool :=
  match v with Arr _ => true | _ => false end.

Definition isPlainObject (v : value) : bool :=
  match v with Obj _ => true | _ => false end.

Definition isDate (v : value) : bool :=
  match v with Date _ => true | _ => false end.

Definition has_name {A : Type} (props : list (string * A)) (k : string)
  : bool :=
  match assoc k props with Some _ => true | None => false end.

(** The characters of a string, each a string of its own. *)
Definition chars (s : string) : list value :=
  map (fun c => Str (String c EmptyString)) (list_ascii_of_string s).

Definition index_of_length (n : nat) (k : string) : bool :=
  String.eqb k "length"
  || existsb (fun i => String.eqb (string_of_nat i) k) (seq 0 n).

(** [_.has(object, key)] for a [key] that is a name and no path, as
    [_id] and [_bsontype] are: [object] has [key] as an own property. *)
Definition has (object : value) (k : string) : bool :=
  match object with
  | Obj props => has_name props k
  | Arr items => index_of_length (List.length items) k
  | Str s => index_of_length (String.length s) k
  | _ => false
  end.

(** A name that every version reads as a name: it has no [.] and no
    [[]. *)
Fixpoint is_name (s : string) : bool :=
  match s with
  | EmptyString => true
  | String c r => negb (char_in ".[" c) && is_name r
  end.

(** [_.has(schema, field)]: an own key of the schema is found; a Number
    and a name that is not an own key are not; for anything else the
    version decides. *)
Definition has_field (L : version) (sch : Schema) (field : key) : bool :=
  match assoc (key_name field) sch with
  | Some _ => true
  | None =>
      match field with
      | KIdx _ => false
      | KStr name => if is_name name then false else follows_path L sch name
      end
  end.

(** [_.map(array, f)] with an [f] that may throw: left to right, the
    first throw ends the call. *)
Definition map {A B : Type} (f : A -> completion B)
  : list A -> completion (list B) :=
  fix go (l : list A) : completion (list B) :=
    match l with
    | [] => Normal []
    | x :: l' => y <- f x ;; ys <- go l' ;; Normal (y :: ys)
    end.

(** The length lodash goes by when it reads an object as an array: the
    own [length] property when it is a Number that is a valid array
    length, or one the version takes all the same. *)
Definition array_length (L : version) (props : list (string * value))
  : option Z :=
  match assoc "length" props with
  | Some (Num x) =>
      match valid_length x with
      | Some n => Some n
      | None => odd_length L x
      end
  | _ => None
  end.

(** [object[0]], ..., [object[n - 1]]: an index that is no property reads
    as undefined. *)
Definition elements (props : list (string * value)) (n : Z) : list value :=
  List.map (fun i => match assoc (string_of_nat i) props with
                     | Some v => v
                     | None => Undefined
                     end)
    (seq 0 (Z.to_nat n)).

Section Reduce.
Context {A : Type} (iteratee : A -> value -> key -> completion A).

Definition reduce_props
  : list (string * value) -> A -> completion A :=
  fix go (props : list (string * value)) (acc : A) : completion A :=
    match props with
    | [] => Normal acc
    | (k, v) :: props' => acc' <- iteratee acc v (KStr k) ;; go props' acc'
    end.

Definition reduce_items
  : list value -> nat -> A -> completion A :=
  fix go (items : list value) (i : nat) (acc : A) : completion A :=
    match items with
    | [] => Normal acc
    | v :: items' => acc' <- iteratee acc v (KIdx i) ;; go items' (S i) acc'
    end.

(** [_.reduce(collection, iteratee, accumulator)]: the iteratee is
    called as [iteratee(accumulator, value, key)] on the elements of an
    array or the characters of a string by index; on an object with an
    array length, on what it has under the indices below that length,
    by index; on the own properties of any other object in enumeration
    order.  Anything else has nothing to iterate, and the accumulator is
    returned.  The optional fourth argument of [_.reduce] is an argument
    of the iteratee where the source uses it. *)
Definition reduce (L : version) (collection : value) (accumulator : A)
  : completion A :=
  match collection with
  | Obj props =>
      match array_length L props with
      | Some n => reduce_items (elements props n) O accumulator
      | None => reduce_props props accumulator
      end
  | Arr items => reduce_items items O accumulator
  | Str s => reduce_items (chars s) O accumulator
  | _ => Normal accumulator
  end.

End Reduce.

(** The own enumerable properties of a value, by name: those of an
    object, the elements of an array or the characters of a string under
    their indices. *)
Definition own_props (v : value) : list (string * value) :=
  match v with
  | Obj props => props
  | Arr items => indexed items
  | Str s => indexed (chars s)
  | _ => []
  end.

(** [_.extend(object, source)] on a source the translator has filled:
    its own properties are assigned to [object] in order and, where the
    version copies them, the properties it inherits and does not
    shadow. *)
Definition extend (L : version) (object : value) (source : derived) : value :=
  let props := own_props (own source) in
  let copied :=
    if extend_inherited L
    then (props
          ++ filter (fun e => negb (has_name props (fst e)))
               (inherited source))%list
    else props in
  fold_left (fun o '(k, v) => set o k v) copied object.

Definition map_props (f : value -> string -> completion value)
  : list (string * value) -> completion (list (string * value)) :=
  fix go (props : list (string * value)) :=
    match props with
    | [] => Normal []
    | (k, v) :: props' =>
        v' <- f v k ;; rest <- go props' ;; Normal ((k, v') :: rest)
    end.

(** [_.mapValues(object, f)]: a new object with the names of [object],
    each value replaced by [f(value, name)]. *)
Definition mapValues (object : value) (f : value -> string -> completion value)
  : completion value :=
  props <- map_props f (own_props object) ;; Normal (Obj props).

End Lodash.

(* ===================================================================== *)
(** * [lib/query.js] *)
(* ===================================================================== *)

Module Query.
Import JS Waterline.

(** [this.schema[field].type == t] *)
Definition type_is (a : attribute) (t : string) : bool :=
  match type a with
  | Some t' => String.eqb t' t
  | None => false
  end.

(** ** Escape regex string *)

Definition metacharacters : string := "-[]{}()+?*./,\^$|#".

(** [val.replace(/[-[\]{}()+?*.\/,\\^$|#]/g, "\\$&")] *)
Definition escape (val : string) : string :=
  replace_chars (char_in metacharacters)
    (fun c => String "\" (String c EmptyString)) val.

Definition caseInsensitive (val : value) : value :=
  match val with
  | Str s => Str (escape s)
  | _ => val
  end.

(** [utils.caseInsensitive(val)], as [parseExpression] calls the escape
    function on a string: the identifier [utils] is resolved first. *)
Definition utils_caseInsensitive (val : string) : completion string :=
  _ <- resolve "utils" ;; Normal (escape val).

(** ** Parse Value *)

(** [ToNumber] of a string of decimal digits. *)
Definition to_number (s : string) : Z := snd (fst (read_digits 10 s 0)).

(** The block of [parseValue] for a field whose declared type is not
    [string]: [Some v] is a [return v] inside the block, [None] is
    leaving it by its end. *)
Definition translate (attr : attribute) (val : string) : option value :=
  if type_is attr "integer" then Some (Num (parseInt val))
  else if type_is attr "float" then Some (Num (parseFloat val))
  else if test iso_timestamp val && type_is attr "date"
          || type_is attr "datetime"
  then Some (Date (DateParse val))
  else if test calendar_date val && type_is attr "date" then
    let parts := split "-" val in
    Some (Date (DateLocal (to_number (nth 0 parts ""))
                          (to_number (nth 1 parts "") - 1)
                          (to_number (nth 2 parts ""))))
  else if String.eqb val "false" && type_is attr "boolean"
  then Some (Bool false)
  else if String.eqb val "true" && type_is attr "boolean"
  then Some (Bool true)
  else None.

(** [self.schema[field].type], read after [_.has(self.schema, field)]
    has answered yes: what is found under a path is not under the name,
    [self.schema[field]] is then undefined, and reading its [type]
    throws (in the words of V8). *)
Definition attribute_of (sch : Schema) (field : key) : completion attribute :=
  match assoc (key_name field) sch with
  | Some attr => Normal attr
  | None =>
      Throw (TypeError "Cannot read properties of undefined (reading 'type')")
  end.

Definition parseValue (L : Lodash.version) (sch : Schema) (field : key)
  (modifier val : value) : completion value :=
  match val with
  | Str s =>
      returned <-
        (if Lodash.has_field L sch field then
           attr <- attribute_of sch field ;;
           Normal (if negb (type_is attr "string") then translate attr s
                   else None)
         else Normal None) ;;
      match returned with
      | Some v => Normal v
      | None =>
          if strict_equals modifier (Str "$ne") then Normal val
          else Normal val
      end
  | _ => Normal val
  end.

(** ** Parse Expression *)

(** The WQL evaluation modifiers for a string operand; [None] when the
    modifier is none of them. *)
Definition string_modifier (modifier val : string)
  : option (completion value) :=
  if String.eqb modifier "contains" then Some (
    val <- utils_caseInsensitive val ;;
    let val := ".*" ++ val ++ ".*" in
    Normal (new_RegExp ("^" ++ val ++ "$") "i"))
  else if String.eqb modifier "like" then Some (
    val <- utils_caseInsensitive val ;;
    let val := replace_chars (Ascii.eqb "%") (fun _ => ".*") val in
    Normal (new_RegExp ("^" ++ val ++ "$") "i"))
  else if String.eqb modifier "startsWith" then Some (
    val <- utils_caseInsensitive val ;;
    let val := val ++ ".*" in
    Normal (new_RegExp ("^" ++ val ++ "$") "i"))
  else if String.eqb modifier "endsWith" then Some (
    val <- utils_caseInsensitive val ;;
    let val := ".*" ++ val in
    Normal (new_RegExp ("^" ++ val ++ "$") "i"))
  else None.

(** The iteratee of the reduce in [parseExpression]; [parse] is
    [parseExpression] at the same field. *)
Definition parseModifier (L : Lodash.version)
  (parse : value -> completion value) (sch : Schema)
  (field : key) (obj val : value) (modifier : key) : completion value :=
  match modifier with
  | KIdx _ => Throw (TypeError "modifier.toLowerCase is not a function")
  | KStr modifier =>
      if String.eqb modifier "!" || String.eqb (toLowerCase modifier) "not"
      then
        if Lodash.isPlainObject val && negb (Lodash.has val "_bsontype")
        then r <- parse val ;; Normal (set obj "$not" r)
        else
          let modifier := if Lodash.isArray val then "$nin" else "$ne" in
          val <- parseValue L sch field (Str modifier) val ;;
          Normal (set obj modifier val)
      else
        match match val with
              | Str s => string_modifier modifier s
              | _ => None
              end with
        | Some result => result
        | None =>
            if String.eqb modifier "<" || String.eqb modifier "lessThan"
               || String.eqb (toLowerCase modifier) "lt"
            then v <- parseValue L sch field (Str modifier) val ;;
                 Normal (set obj "$lt" v)
            else if String.eqb modifier "<="
                    || String.eqb modifier "lessThanOrEqual"
                    || String.eqb (toLowerCase modifier) "lte"
            then v <- parseValue L sch field (Str modifier) val ;;
                 Normal (set obj "$lte" v)
            else if String.eqb modifier ">" || String.eqb modifier "greaterThan"
                    || String.eqb (toLowerCase modifier) "gt"
            then v <- parseValue L sch field (Str modifier) val ;;
                 Normal (set obj "$gt" v)
            else if String.eqb modifier ">="
                    || String.eqb modifier "greaterThanOrEqual"
                    || String.eqb (toLowerCase modifier) "gte"
            then v <- parseValue L sch field (Str modifier) val ;;
                 Normal (set obj "$gte" v)
            else v <- parseValue L sch field (Str modifier) val ;;
                 Normal (set obj modifier v)
        end
  end.

(** [parseExpression].  The recursion is on the expression; the reduce
    of the source runs on a plain object: on its properties or, when
    lodash reads the object as an array, on its indices, where the
    iteratee is called with Number keys and throws before it can
    recurse.  [parseExpression_eq] below gives the equation in the shape
    of the source. *)
Fixpoint parseExpression (L : Lodash.version) (sch : Schema) (field : key)
  (expression : value) {struct expression} : completion value :=
  match expression with
  | Obj props =>
      match Lodash.array_length L props with
      | Some n =>
          Lodash.reduce_items
            (parseModifier L (fun _ => Normal Undefined) sch field)
            (Lodash.elements props n) O (Obj [])
      | None =>
          Lodash.reduce_props
            (parseModifier L (parseExpression L sch field) sch field)
            props (Obj [])
      end
  | Arr _ =>
      v <- parseValue L sch field (Str "$in") expression ;;
      Normal (Obj [("$in", v)])
  | _ => parseValue L sch field Undefined expression
  end.

(** ** Parse Clause *)

Definition logical_operators : list value :=
  [Str "$or"; Str "$and"; Str "$nor"].

(** The iteratee of the reduce over a [like] clause. *)
Definition parseLikeClauses (L : Lodash.version) (sch : Schema)
  (likes : derived) (expression : value) (field : key) : completion derived :=
  e <- parseExpression L sch field (Obj [("like", expression)]) ;;
  Normal (put likes (key_name field) e).

(** The [this] of the iteratee of the reduce in [parseClause]: the
    fourth argument of that reduce, the clause being parsed, where
    lodash binds it. *)
Definition this_of (L : Lodash.version) (original : value) : value :=
  if Lodash.binds_this L then original else Undefined.

(** The iteratee of the reduce in [parseClause]; [parse] is
    [parseClause]. *)
Definition parseClausePair (L : Lodash.version)
  (parse : value -> completion value) (sch : Schema)
  (this obj val : value) (key : key) : completion value :=
  match key with
  | KIdx _ => Throw (TypeError "key.toLowerCase is not a function")
  | KStr key =>
      let key := if String.eqb (toLowerCase key) "or" then "$or" else key in
      if negb (indexOf logical_operators (Str key) =? -1) then
        match val with
        | Arr clauses =>
            val <- Lodash.map parse clauses ;; Normal (set obj key (Arr val))
        | _ => Normal obj
        end
      else if String.eqb (toLowerCase key) "like" then
        likes <- Lodash.reduce (parseLikeClauses L sch) L val
                   (Derived (Obj []) []) ;;
        Normal (Lodash.extend L obj likes)
      else
        let key :=
          if String.eqb key "id" && negb (Lodash.has this "_id")
          then "_id" else key in
        val <- parseExpression L sch (KStr key) val ;;
        Normal (set obj key val)
  end.

(** [parseClause].  The recursion is on the clause: through the reduce
    over an object or an array, and from there through the map over the
    clauses of a logical operator.  On a string, and on an object that
    lodash reads as an array, the iteratee is called with Number keys
    and throws before it can recurse.  [parseClause_eq] below gives the
    equation in the shape of the source. *)
Fixpoint parseClause (L : Lodash.version) (sch : Schema) (original : value)
  {struct original} : completion value :=
  match original with
  | Obj props =>
      match Lodash.array_length L props with
      | Some n =>
          Lodash.reduce_items
            (parseClausePair L (fun _ => Normal Undefined) sch
               (this_of L original))
            (Lodash.elements props n) O (Obj [])
      | None =>
          Lodash.reduce_props
            (parseClausePair L (parseClause L sch) sch (this_of L original))
            props (Obj [])
      end
  | Arr items =>
      Lodash.reduce_items
        (parseClausePair L (parseClause L sch) sch (this_of L original))
        items O (Obj [])
  | Str s =>
      Lodash.reduce_items
        (parseClausePair L (fun _ => Normal Undefined) sch
           (this_of L original))
        (Lodash.chars s) O (Obj [])
  | _ => Normal (Obj [])
  end.

(** ** Parse Where *)

Definition parseWhere (L : Lodash.version) (sch : Schema) (original : value)
  : completion value :=
  if Lodash.isNull original then Normal (Obj [])
  else parseClause L sch original.

(** ** Parse Sort *)

Definition parseSortPair (sort order : value) (field : key)
  : completion value :=
  let field := if key_is field "id" then KStr "_id" else field in
  Normal (set sort (key_name field)
            (if -1 <? indexOf [Num (num 0); Num (num (-1))] order
             then Num (num (-1)) else Num (num 1))).

Definition parseSort (L : Lodash.version) (original : value)
  : completion value :=
  Lodash.reduce parseSortPair L original (Obj []).

(** ** Normalize Criteria *)

Definition normalizeCriteria (L : Lodash.version) (sch : Schema)
  (options : value) : completion value :=
  Lodash.mapValues options (fun original key =>
    if String.eqb key "where" then parseWhere L sch original
    else if String.eqb key "sort" then parseSort L original
    else Normal original).

(** ** Query Constructor *)

Record instance : Type := Instance { schema : Schema; criteria : value }.

Definition new_Query (L : Lodash.version) (options : value) (sch : Schema)
  : completion instance :=
  c <- normalizeCriteria L sch options ;;
  Normal {| schema := sch; criteria := c |}.

End Query.



(* ===================================================================== *)
(** * Properties *)
(* ===================================================================== *)

Import JS Waterline Query.

(** Every property is stated for a version [L] of lodash, and holds for
    whichever lodash is installed. *)

(** [coerce(v)]: what [parseValue] makes of an operand of a field.  The
    modifier argument of [parseValue] never changes its result
    ([parseValue_modifier]), so it is left undefined here. *)
Definition coerce (L : Lodash.version) (sch : Schema) (field : key) (v : value)
  : completion value :=
  parseValue L sch field Undefined v.

(** The Number value [z] as a value. *)
Definition int (z : Z) : value := Num (num z).

(** ** Vocabulary of the properties *)

(** The WQL evaluation modifiers for strings. *)
Definition string_modifiers : list string :=
  ["contains"; "like"; "startsWith"; "endsWith"].

(** The name a field pair is stored under: [id] becomes [_id] unless
    [this] has an [_id] of its own. *)
Definition field_key (this : value) (key : string) : string :=
  if String.eqb key "id" && negb (Lodash.has this "_id") then "_id" else key.

(** [or], in any case, is folded to [$or]; any other key is kept. *)
Definition fold_or (key : string) : string :=
  if String.eqb (toLowerCase key) "or" then "$or" else key.

(** What [_.has] finds of a field in the schema is a key of the schema:
    the field is a key, or [_.has] does not find it at all.  The type of
    the field can then be read. *)
Definition resolves (L : Lodash.version) (sch : Schema) (field : key) : bool :=
  match assoc (key_name field) sch with
  | Some _ => true
  | None => negb (Lodash.has_field L sch field)
  end.

(** A schema that leaves the strings of a field alone: it declares the
    field with type [string], or [_.has] does not find the field in
    it. *)
Definition passes_strings (L : Lodash.version) (sch : Schema) (field : key)
  : bool :=
  match assoc (key_name field) sch with
  | Some attr => type_is attr "string"
  | None => negb (Lodash.has_field L sch field)
  end.

(** After white space and a sign, the string starts with [0x] or [0X]. *)
Definition hex_prefixed (s : string) : bool :=
  let rest := snd (drop_sign (trimStart s)) in
  starts_with "0x" rest || starts_with "0X" rest.

(** The test of [parseSort] on an order: [[0, -1].indexOf(order) > -1]. *)
Definition descending (order : value) : bool :=
  -1 <? indexOf [int 0; int (-1)] order.

(** The name a sort entry is stored under. *)
Definition sort_name (field : string) : string :=
  if String.eqb field "id" then "_id" else field.

(** A sort entry, normalized. *)
Definition sort_entry (e : string * value) : string * value :=
  (sort_name (fst e), int (if descending (snd e) then -1 else 1)).

(** Lodash reads the value as an array though it is a plain object. *)
Definition array_like (L : Lodash.version) (v : value) : bool :=
  match v with
  | Obj props =>
      match Lodash.array_length L props with Some _ => true | None => false end
  | _ => false
  end.

(** Among the properties of one object, [k] is enumerated before a
    different name [k'] that is assigned after it: always, unless [k'] is
    an array index, which goes before every name that is none and before
    every greater index. *)
Definition before (k k' : string) : bool :=
  match array_index k, array_index k' with
  | Some i, Some j => i <? j
  | Some _, None => true
  | None, Some _ => false
  | None, None => negb (String.eqb k k')
  end.

(** The names are in the order in which an object enumerates them once
    they have been assigned in this order: no name occurs twice, none is
    [__proto__], which names no property, and the array indices come
    first, in ascending order. *)
Fixpoint enumerated (names : list string) : bool :=
  match names with
  | [] => true
  | k :: names' =>
      negb (String.eqb k "__proto__") && forallb (before k) names'
      && enumerated names'
  end.

(** ** Vocabulary of the further properties *)

(** The modifier negates: it is [!], or [not] in any case. *)
Definition negation_key (m : string) : bool :=
  String.eqb m "!" || String.eqb (toLowerCase m) "not".

(** The modifier is one of the string-match modifiers. *)
Definition is_string_modifier (m : string) : bool :=
  existsb (String.eqb m) string_modifiers.

(** The key a modifier that does not negate is stored under: the
    operator of a comparison alias, the modifier itself otherwise. *)
Definition operator_key (m : string) : string :=
  if String.eqb m "<" || String.eqb m "lessThan"
     || String.eqb (toLowerCase m) "lt" then "$lt"
  else if String.eqb m "<=" || String.eqb m "lessThanOrEqual"
          || String.eqb (toLowerCase m) "lte" then "$lte"
  else if String.eqb m ">" || String.eqb m "greaterThan"
          || String.eqb (toLowerCase m) "gt" then "$gt"
  else if String.eqb m ">=" || String.eqb m "greaterThanOrEqual"
          || String.eqb (toLowerCase m) "gte" then "$gte"
  else m.

(** [m] is an alias of the comparison operator [op]. *)
Definition alias (m op : string) : Prop :=
  (op = "$lt" /\ (m = "<" \/ m = "lessThan" \/ toLowerCase m = "lt")) \/
  (op = "$lte"
   /\ (m = "<=" \/ m = "lessThanOrEqual" \/ toLowerCase m = "lte")) \/
  (op = "$gt" /\ (m = ">" \/ m = "greaterThan" \/ toLowerCase m = "gt")) \/
  (op = "$gte"
   /\ (m = ">=" \/ m = "greaterThanOrEqual" \/ toLowerCase m = "gte")).

(** Undoing [escape]: a backslash is dropped and the character after it
    is kept as it is. *)
Fixpoint unescape (s : string) : string :=
  match s with
  | EmptyString => EmptyString
  | String c r =>
      if Ascii.eqb c "\" then
        match r with
        | String c' r' => String c' (unescape r')
        | EmptyString => String c EmptyString
        end
      else String c (unescape r)
  end.

(** The number of regex metacharacters in a string. *)
Fixpoint metacharacter_count (s : string) : nat :=
  match s with
  | EmptyString => O
  | String c r =>
      ((if char_in metacharacters c then 1 else 0)
       + metacharacter_count r)%nat
  end.

(** The declared types [parseValue] acts on. *)
Definition coerced_types : list string :=
  ["integer"; "float"; "date"; "datetime"; "boolean"].

(** The attribute of a field has none of the types [parseValue] acts
    on: another type name, or no type at all. *)
Definition other_type (a : attribute) : bool :=
  match type a with
  | Some t => negb (existsb (String.eqb t) coerced_types)
  | None => true
  end.

(** The expressions that [parseExpression] translates for a field, with
    [typed] saying whether the type of the field can be read
    ([resolves]): a string needs the type; an object that lodash reads
    as an array must have no index to go through; in any other object no
    string-match modifier has a string operand, no other modifier has a
    string operand unless the type can be read, and the objects under
    the negating modifiers, which are parsed as expressions, are
    translated themselves. *)
Fixpoint translates (L : Lodash.version) (typed : bool) (e : value) : bool :=
  match e with
  | Str _ => typed
  | Obj props =>
      match Lodash.array_length L props with
      | Some n => n <=? 0
      | None =>
          (fix all (l : list (string * value)) : bool :=
             match l with
             | [] => true
             | (m, v) :: l' =>
                 (if negation_key m then
                    if Lodash.isPlainObject v
                       && negb (Lodash.has v "_bsontype")
                    then translates L typed v
                    else negb (Lodash.isString v) || typed
                  else negb (Lodash.isString v && is_string_modifier m)
                       && (negb (Lodash.isString v) || typed))
                 && all l'
             end) props
      end
  | _ => true
  end.

(** A pair of a translated expression: translating it again stores the
    same value under the same key. *)
Definition settled (L : Lodash.version) (sch : Schema) (field : key)
  (e : string * value) : Prop :=
  negation_key (fst e) = false /\ operator_key (fst e) = fst e /\
  Lodash.isString (snd e) && is_string_modifier (fst e) = false /\
  coerce L sch field (snd e) = Normal (snd e).

(** The key is one of the logical operators. *)
Definition is_logical (key : string) : bool :=
  negb (indexOf logical_operators (Str key) =? -1).

(** The key of a clause pair stands for a field: it is no logical
    operator, folded or not, and it is not [like] in any case. *)
Definition is_field (key : string) : bool :=
  negb (is_logical (fold_or key))
  && negb (String.eqb (toLowerCase key) "like").

(** The pairs of a clause parsed as fields, one after the other: each
    expression is parsed for the name its pair is stored under, and the
    first that throws ends the parse. *)
Fixpoint parse_fields (L : Lodash.version) (sch : Schema) (this : value)
  (props : list (string * value)) : completion (list (string * value)) :=
  match props with
  | [] => Normal []
  | (k, v) :: props' =>
      e <- parseExpression L sch (KStr (field_key this k)) v ;;
      rest <- parse_fields L sch this props' ;;
      Normal ((field_key this k, e) :: rest)
  end.

(** The errors of the expression parser: the unbound [utils], a Number
    where a modifier is expected, and the type of a field that is
    found in the schema under no key. *)
Definition expression_error (err : error) : Prop :=
  err = ReferenceError "utils"
  \/ err = TypeError "modifier.toLowerCase is not a function"
  \/ err = TypeError "Cannot read properties of undefined (reading 'type')".

(** The errors of the clause parser: those of the expression parser, and
    a Number where a key is expected. *)
Definition clause_error (err : error) : Prop :=
  expression_error err
  \/ err = TypeError "key.toLowerCase is not a function".

(** An order of the output of [parseSort]. *)
Definition is_order (v : value) : Prop := v = int 1 \/ v = int (-1).

(** What every output of [parseSort] is: orders under names in the order
    of their enumeration, none of them [id]. *)
Definition sort_output (out : list (string * value)) : Prop :=
  Forall (fun e => is_order (snd e)) out
  /\ enumerated (List.map fst out) = true
  /\ existsb (String.eqb "id") (List.map fst out) = false.

(** The key of a criteria is neither [where] nor [sort]. *)
Definition other_key (k : string) : bool :=
  negb (String.eqb k "where") && negb (String.eqb k "sort").

(** The pair a [like] clause stores for a field whose expression is no
    string. *)
Definition like_entry (e : string * value) : string * value :=
  (fst e, Obj [("like", snd e)]).

(** ** The inputs of the examples *)

(** The paths of the examples: [field.type], for a field that the
    schema declares with a type. *)
Definition type_path (sch : Schema) (name : string) : bool :=
  match split "." name with
  | [field; property] =>
      match assoc field sch with
      | Some attr =>
          String.eqb property "type"
          && match type attr with Some _ => true | None => false end
      | None => false
      end
  | _ => false
  end.

(** Two versions for the examples.  On the inputs of the examples they
    do what lodash 3 and lodash 4 do: both go by valid array lengths
    only and find [field.type] in a schema; the first binds [this] in
    [_.reduce] and copies own properties in [_.extend], the second does
    neither. *)
Definition lodash_3 : Lodash.version :=
  {| Lodash.binds_this := true;
     Lodash.follows_path := type_path;
     Lodash.odd_length := fun _ => None;
     Lodash.extend_inherited := false |}.

Definition lodash_4 : Lodash.version :=
  {| Lodash.binds_this := false;
     Lodash.follows_path := type_path;
     Lodash.odd_length := fun _ => None;
     Lodash.extend_inherited := true |}.

(** A schema that declares [age] an [integer]. *)
Definition age_integer : Schema := [("age", Attribute (Some "integer"))].


(** [{ where: { like: { name: "jo%n" } } }] *)
Definition like_name : value :=
  Obj [("where", Obj [("like", Obj [("name", Str "jo%n")])])].

(** The clause [{ like: { _id: 5 }, id: 1 }] *)
Definition like_then_id : value :=
  Obj [("like", Obj [("_id", int 5)]); ("id", int 1)].

(** The output of that level once its [like] pair is parsed. *)
Definition output_after_like : value := Obj [("_id", Obj [("like", int 5)])].



(** ** Completions and the equations of the recursive functions *)

Lemma bind_Normal {A : Type} (c : completion A) : bind c Normal = c.
Proof. destruct c; reflexivity. Qed.

Lemma bind_assoc {A B C : Type} (c : completion A)
  (f : A -> completion B) (g : B -> completion C) :
  bind (bind c f) g = bind c (fun a => bind (f a) g).
Proof. destruct c; reflexivity. Qed.

(** With a Number key the iteratee of [parseExpression] throws,
    whatever it would recurse with. *)
Lemma reduce_items_parseModifier (L : Lodash.version)
  (p q : value -> completion value) (sch : Schema) (field : key)
  (items : list value) (i : nat) (acc : value) :
  Lodash.reduce_items (parseModifier L p sch field) items i acc =
  Lodash.reduce_items (parseModifier L q sch field) items i acc.
Proof. destruct items; reflexivity. Qed.

(** [parseExpression] in the shape of the source: a reduce over a plain
    object that is no Date, [$in] around an array, the coerced value
    otherwise. *)
Lemma parseExpression_eq (L : Lodash.version) (sch : Schema) (field : key)
  (expression : value) :
  parseExpression L sch field expression =
  if Lodash.isPlainObject expression && negb (Lodash.isDate expression) then
    Lodash.reduce (parseModifier L (parseExpression L sch field) sch field)
      L expression (Obj [])
  else if Lodash.isArray expression then
    v <- parseValue L sch field (Str "$in") expression ;;
    Normal (Obj [("$in", v)])
  else parseValue L sch field Undefined expression.
Proof. destruct expression; reflexivity. Qed.

(** With a Number key the iteratee of [parseClause] throws, whatever it
    would recurse with. *)
Lemma reduce_items_parseClausePair (L : Lodash.version)
  (p q : value -> completion value)
  (sch : Schema) (this : value) (items : list value) (i : nat) (acc : value) :
  Lodash.reduce_items (parseClausePair L p sch this) items i acc =
  Lodash.reduce_items (parseClausePair L q sch this) items i acc.
Proof. destruct items; reflexivity. Qed.

(** [parseClause] in the shape of the source: a reduce over the clause
    with the clause as fourth argument. *)
Lemma parseClause_eq (L : Lodash.version) (sch : Schema) (original : value) :
  parseClause L sch original =
  Lodash.reduce
    (parseClausePair L (parseClause L sch) sch (this_of L original))
    L original (Obj []).
Proof. destruct original; reflexivity. Qed.

(** An object that lodash does not read as an array is parsed by its
    properties. *)
Lemma parseExpression_props (L : Lodash.version) (sch : Schema) (field : key)
  (props : list (string * value)) :
  Lodash.array_length L props = None ->
  parseExpression L sch field (Obj props) =
  Lodash.reduce_props
    (parseModifier L (parseExpression L sch field) sch field) props (Obj []).
Proof. intros H. cbn [parseExpression]. now rewrite H. Qed.

Lemma parseClause_props (L : Lodash.version) (sch : Schema)
  (props : list (string * value)) :
  Lodash.array_length L props = None ->
  parseClause L sch (Obj props) =
  Lodash.reduce_props
    (parseClausePair L (parseClause L sch) sch (this_of L (Obj props)))
    props (Obj []).
Proof. intros H. cbn [parseClause]. now rewrite H. Qed.

(** A property that is not [length] says nothing of the length. *)
Lemma array_length_cons (L : Lodash.version) (k : string) (v : value)
  (props : list (string * value)) :
  String.eqb "length" k = false ->
  Lodash.array_length L ((k, v) :: props) = Lodash.array_length L props.
Proof. intros H. unfold Lodash.array_length. cbn [assoc]. now rewrite H. Qed.

Lemma array_length_one (L : Lodash.version) (k : string) (v : value) :
  String.eqb "length" k = false -> Lodash.array_length L [(k, v)] = None.
Proof. intros H. now rewrite array_length_cons. Qed.

Lemma reduce_props_one {A : Type} (f : A -> value -> key -> completion A)
  (k : string) (v : value) (acc : A) :
  Lodash.reduce_props f [(k, v)] acc = f acc v (KStr k).
Proof. cbn. apply bind_Normal. Qed.

(** An expression of one modifier is one call of the iteratee. *)
Lemma parseExpression_one (L : Lodash.version) (sch : Schema) (field : key)
  (m : string) (v : value) :
  String.eqb "length" m = false ->
  parseExpression L sch field (Obj [(m, v)]) =
  parseModifier L (parseExpression L sch field) sch field (Obj []) v (KStr m).
Proof.
  intros H. rewrite parseExpression_props by now apply array_length_one.
  apply reduce_props_one.
Qed.

(** ** [parseValue] *)

Lemma parseValue_modifier (L : Lodash.version) (sch : Schema) (field : key)
  (m m' v : value) :
  parseValue L sch field m v = parseValue L sch field m' v.
Proof.
  unfold parseValue. destruct v; try reflexivity.
  destruct (if Lodash.has_field L sch field
            then attr <- attribute_of sch field ;;
                 Normal (if negb (type_is attr "string")
                         then translate attr s else None)
            else Normal None) as [[w|]|]; try reflexivity.
  cbn [bind].
  destruct (strict_equals m (Str "$ne")), (strict_equals m' (Str "$ne"));
    reflexivity.
Qed.

Lemma parseValue_coerce (L : Lodash.version) (sch : Schema) (field : key)
  (m v : value) :
  parseValue L sch field m v = coerce L sch field v.
Proof. apply parseValue_modifier. Qed.

Lemma parseValue_not_string (L : Lodash.version) (sch : Schema) (field : key)
  (m v : value) :
  Lodash.isString v = false -> parseValue L sch field m v = Normal v.
Proof. destruct v; try reflexivity. discriminate. Qed.

(** The ways out of [parseValue] on a string. *)
Lemma parseValue_string (L : Lodash.version) (sch : Schema) (field : key)
  (m : value) (s : string) :
  parseValue L sch field m (Str s) =
  match assoc (key_name field) sch with
  | Some attr =>
      Normal (if type_is attr "string" then Str s
              else match translate attr s with Some v => v | None => Str s end)
  | None =>
      if Lodash.has_field L sch field
      then Throw (TypeError
                    "Cannot read properties of undefined (reading 'type')")
      else Normal (Str s)
  end.
Proof.
  unfold parseValue, attribute_of, Lodash.has_field.
  destruct (assoc (key_name field) sch) as [attr|].
  - cbn [bind]. destruct (type_is attr "string"); cbn [negb].
    + destruct (strict_equals m (Str "$ne")); reflexivity.
    + destruct (translate attr s); [reflexivity|].
      destruct (strict_equals m (Str "$ne")); reflexivity.
  - destruct field as [name|i].
    + destruct (if Lodash.is_name name then false
                else Lodash.follows_path L sch name); [reflexivity|].
      cbn [bind]. destruct (strict_equals m (Str "$ne")); reflexivity.
    + cbn [bind]. destruct (strict_equals m (Str "$ne")); reflexivity.
Qed.

(** The coercion of a field whose type can be read returns. *)
Lemma coerce_returns (L : Lodash.version) (sch : Schema) (field : key)
  (v : value) :
  Lodash.isString v = false \/ resolves L sch field = true ->
  exists c, coerce L sch field v = Normal c.
Proof.
  intros [H | H].
  - exists v. now apply parseValue_not_string.
  - unfold coerce. destruct v; try (eexists; reflexivity).
    rewrite parseValue_string. unfold resolves in H.
    destruct (assoc (key_name field) sch); [eexists; reflexivity|].
    apply negb_true_iff in H. rewrite H. eexists; reflexivity.
Qed.

(** ** Dispatch on the modifier *)

(** A key whose lower case is [l] is not a literal whose lower case
    differs from [l]. *)
Lemma eqb_lower (m lit l : string) :
  toLowerCase m = l -> toLowerCase lit <> l -> String.eqb m lit = false.
Proof.
  intros H Hne. destruct (String.eqb_spec m lit) as [->|]; [|reflexivity].
  contradiction.
Qed.

(** Decide a test on a modifier [m] known either as a literal or by its
    lower case [H : toLowerCase m = l]. *)
Ltac by_lower H :=
  rewrite ?H;
  repeat match goal with
         | |- context [String.eqb ?m ?lit] =>
             rewrite (eqb_lower m lit _ H) by (vm_compute; discriminate)
         end;
  reflexivity.

Ltac key_cases H :=
  destruct H as [-> | [-> | H]];
  [ reflexivity | reflexivity | unfold string_modifier; by_lower H ].

(** No alias of a comparison operator is [length]. *)
Lemma alias_not_length (m a b l : string) :
  m = a \/ m = b \/ toLowerCase m = l ->
  String.eqb "length" a = false -> String.eqb "length" b = false ->
  toLowerCase "length" <> l ->
  String.eqb "length" m = false.
Proof.
  intros [-> | [-> | H]] Ha Hb Hl; [exact Ha | exact Hb |].
  rewrite String.eqb_sym. now apply (eqb_lower m "length" l).
Qed.

Section Comparison.
Variables (L : Lodash.version) (parse : value -> completion value).
Variables (sch : Schema) (field : key) (obj v : value) (m : string).

Lemma string_operand_none :
  (forall s, string_modifier m s = None) ->
  match v with Str s => string_modifier m s | _ => None end = None.
Proof. intros H. destruct v; auto. Qed.

Lemma parseModifier_lt :
  m = "<" \/ m = "lessThan" \/ toLowerCase m = "lt" ->
  parseModifier L parse sch field obj v (KStr m) =
  (c <- coerce L sch field v ;; Normal (set obj "$lt" c)).
Proof.
  intros H. unfold parseModifier.
  assert (Hnot : String.eqb m "!" || String.eqb (toLowerCase m) "not" = false)
    by key_cases H.
  assert (Hstr : forall s, string_modifier m s = None)
    by (intros s; key_cases H).
  assert (Hlt : String.eqb m "<" || String.eqb m "lessThan"
                || String.eqb (toLowerCase m) "lt" = true) by key_cases H.
  rewrite Hnot, (string_operand_none Hstr), Hlt, parseValue_coerce.
  reflexivity.
Qed.

Lemma parseModifier_lte :
  m = "<=" \/ m = "lessThanOrEqual" \/ toLowerCase m = "lte" ->
  parseModifier L parse sch field obj v (KStr m) =
  (c <- coerce L sch field v ;; Normal (set obj "$lte" c)).
Proof.
  intros H. unfold parseModifier.
  assert (Hnot : String.eqb m "!" || String.eqb (toLowerCase m) "not" = false)
    by key_cases H.
  assert (Hstr : forall s, string_modifier m s = None)
    by (intros s; key_cases H).
  assert (Hlt : String.eqb m "<" || String.eqb m "lessThan"
                || String.eqb (toLowerCase m) "lt" = false) by key_cases H.
  assert (Hlte : String.eqb m "<=" || String.eqb m "lessThanOrEqual"
                 || String.eqb (toLowerCase m) "lte" = true) by key_cases H.
  rewrite Hnot, (string_operand_none Hstr), Hlt, Hlte, parseValue_coerce.
  reflexivity.
Qed.

Lemma parseModifier_gt :
  m = ">" \/ m = "greaterThan" \/ toLowerCase m = "gt" ->
  parseModifier L parse sch field obj v (KStr m) =
  (c <- coerce L sch field v ;; Normal (set obj "$gt" c)).
Proof.
  intros H. unfold parseModifier.
  assert (Hnot : String.eqb m "!" || String.eqb (toLowerCase m) "not" = false)
    by key_cases H.
  assert (Hstr : forall s, string_modifier m s = None)
    by (intros s; key_cases H).
  assert (Hlt : String.eqb m "<" || String.eqb m "lessThan"
                || String.eqb (toLowerCase m) "lt" = false) by key_cases H.
  assert (Hlte : String.eqb m "<=" || String.eqb m "lessThanOrEqual"
                 || String.eqb (toLowerCase m) "lte" = false) by key_cases H.
  assert (Hgt : String.eqb m ">" || String.eqb m "greaterThan"
                || String.eqb (toLowerCase m) "gt" = true) by key_cases H.
  rewrite Hnot, (string_operand_none Hstr), Hlt, Hlte, Hgt, parseValue_coerce.
  reflexivity.
Qed.

Lemma parseModifier_gte :
  m = ">=" \/ m = "greaterThanOrEqual" \/ toLowerCase m = "gte" ->
  parseModifier L parse sch field obj v (KStr m) =
  (c <- coerce L sch field v ;; Normal (set obj "$gte" c)).
Proof.
  intros H. unfold parseModifier.
  assert (Hnot : String.eqb m "!" || String.eqb (toLowerCase m) "not" = false)
    by key_cases H.
  assert (Hstr : forall s, string_modifier m s = None)
    by (intros s; key_cases H).
  assert (Hlt : String.eqb m "<" || String.eqb m "lessThan"
                || String.eqb (toLowerCase m) "lt" = false) by key_cases H.
  assert (Hlte : String.eqb m "<=" || String.eqb m "lessThanOrEqual"
                 || String.eqb (toLowerCase m) "lte" = false) by key_cases H.
  assert (Hgt : String.eqb m ">" || String.eqb m "greaterThan"
                || String.eqb (toLowerCase m) "gt" = false) by key_cases H.
  assert (Hgte : String.eqb m ">=" || String.eqb m "greaterThanOrEqual"
                 || String.eqb (toLowerCase m) "gte" = true) by key_cases H.
  rewrite Hnot, (string_operand_none Hstr), Hlt, Hlte, Hgt, Hgte,
    parseValue_coerce.
  reflexivity.
Qed.

End Comparison.




(** ** Modifiers that are passed through *)

Lemma parseModifier_string_modifier_other (L : Lodash.version)
  (parse : value -> completion value)
  (sch : Schema) (field : key) (obj v : value) (m : string) :
  In m string_modifiers -> Lodash.isString v = false ->
  parseModifier L parse sch field obj v (KStr m) = Normal (set obj m v).
Proof.
  intros Hm Hv. unfold string_modifiers in Hm. cbn [In] in Hm.
  destruct Hm as [<- | [<- | [<- | [<- | []]]]];
    destruct v; try discriminate Hv; reflexivity.
Qed.

Lemma string_modifier_not_length (m : string) :
  In m string_modifiers -> String.eqb "length" m = false.
Proof.
  unfold string_modifiers. cbn [In].
  intros [<- | [<- | [<- | [<- | []]]]]; reflexivity.
Qed.

(** C10. A string-match modifier whose operand is not a string builds no
    regular expression: [{ contains: v }] (and the same for [like],
    [startsWith], [endsWith]) translates to the same modifier, verbatim,
    around the coerced operand, which for an operand that is not a
    string is the operand itself, whatever the schema says of the
    field. *)
Theorem string_modifier_needs_string (L : Lodash.version) (sch : Schema)
  (field : key) (m : string) (v : value) :
  In m string_modifiers -> Lodash.isString v = false ->
  parseExpression L sch field (Obj [(m, v)]) = Normal (Obj [(m, v)])
  /\ coerce L sch field v = Normal v.
Proof.
  intros Hm Hv.
  split; [|now apply parseValue_not_string].
  rewrite parseExpression_one by now apply string_modifier_not_length.
  rewrite parseModifier_string_modifier_other by assumption.
  unfold string_modifiers in Hm. cbn [In] in Hm.
  destruct Hm as [<- | [<- | [<- | [<- | []]]]]; reflexivity.
Qed.

Lemma string_modifier_needs_string_witness :
  In "contains" string_modifiers /\ Lodash.isString (int 4) = false /\
  parseExpression lodash_4 age_integer (KStr "age")
    (Obj [("contains", int 4)]) =
  Normal (Obj [("contains", int 4)]).
Proof.
  split; [left; reflexivity|]. split; [reflexivity|].
  exact (proj1 (string_modifier_needs_string lodash_4 age_integer (KStr "age")
                  "contains" (int 4) (or_introl eq_refl) eq_refl)).
Defined.

(** ** Negation *)





(** ** String-match modifiers on a string *)

Lemma resolve_utils : resolve "utils" = Throw (ReferenceError "utils").
Proof. reflexivity. Qed.

Lemma string_modifier_throws (m s : string) :
  In m string_modifiers ->
  string_modifier m s = Some (Throw (ReferenceError "utils")).
Proof.
  unfold string_modifiers. cbn [In].
  intros [<- | [<- | [<- | [<- | []]]]]; reflexivity.
Qed.

Lemma parseModifier_string_modifier_throws (L : Lodash.version)
  (parse : value -> completion value)
  (sch : Schema) (field : key) (obj : value) (m s : string) :
  In m string_modifiers ->
  parseModifier L parse sch field obj (Str s) (KStr m) =
  Throw (ReferenceError "utils").
Proof.
  unfold string_modifiers. cbn [In].
  intros [<- | [<- | [<- | [<- | []]]]]; reflexivity.
Qed.

(** The escape function that the file itself defines
    ([Query.prototype.caseInsensitive]) puts a backslash before a
    metacharacter. *)
Example caseInsensitive_dot : caseInsensitive (Str "a.b") = Str "a\.b".
Proof. reflexivity. Qed.

(** An expression whose first modifier is a string-match modifier on a
    string throws when the escape function is looked up. *)
Lemma parseExpression_unresolved (L : Lodash.version) (sch : Schema)
  (field : key) (m s : string) (more : list (string * value)) :
  In m string_modifiers ->
  Lodash.array_length L ((m, Str s) :: more) = None ->
  parseExpression L sch field (Obj ((m, Str s) :: more)) =
  Throw (ReferenceError "utils").
Proof.
  intros Hm Hl. rewrite parseExpression_props by exact Hl.
  cbn [Lodash.reduce_props].
  now rewrite parseModifier_string_modifier_throws.
Qed.

(** C2. The translation of a string-match modifier on a string operand
    builds no regular expression: for every schema, field and string
    [s], parsing [{ contains: s }], [{ like: s }], [{ startsWith: s }]
    or [{ endsWith: s }] throws a ReferenceError, because the escape
    function is called as [utils.caseInsensitive] and nothing binds
    [utils]. *)
Theorem string_modifier_unresolved (L : Lodash.version) (sch : Schema)
  (field : key) (s : string) :
  parseExpression L sch field (Obj [("contains", Str s)]) =
  Throw (ReferenceError "utils") /\
  parseExpression L sch field (Obj [("like", Str s)]) =
  Throw (ReferenceError "utils") /\
  parseExpression L sch field (Obj [("startsWith", Str s)]) =
  Throw (ReferenceError "utils") /\
  parseExpression L sch field (Obj [("endsWith", Str s)]) =
  Throw (ReferenceError "utils").
Proof.
  split; [|split; [|split]]; apply parseExpression_unresolved;
    try reflexivity; unfold string_modifiers; cbn [In]; auto.
Qed.

(** A key that is no logical operator and not [like] is a field. *)
Lemma parseClausePair_field (L : Lodash.version)
  (parse : value -> completion value) (sch : Schema)
  (this obj val : value) (key : string) :
  String.eqb (toLowerCase key) "or" = false ->
  negb (indexOf logical_operators (Str key) =? -1) = false ->
  String.eqb (toLowerCase key) "like" = false ->
  parseClausePair L parse sch this obj val (KStr key) =
  (e <- parseExpression L sch (KStr (field_key this key)) val ;;
   Normal (set obj (field_key this key) e)).
Proof.
  intros Hor Hlog Hlike. unfold parseClausePair, field_key.
  rewrite Hor. cbv zeta iota. rewrite Hlog, Hlike. reflexivity.
Qed.

(** C1. Constructing a Query does not always return: for every schema,
    whenever the first pair of [where] is the field [name] with a
    string-match modifier on a string operand first, in objects that
    lodash does not read as arrays, the constructor throws the
    ReferenceError of the unbound [utils] to its caller. *)
Theorem new_Query_throws (L : Lodash.version) (sch : Schema) (m s : string)
  (more pairs rest : list (string * value)) :
  In m string_modifiers ->
  Lodash.array_length L (("name", Obj ((m, Str s) :: more)) :: pairs) = None ->
  Lodash.array_length L ((m, Str s) :: more) = None ->
  new_Query L
    (Obj (("where", Obj (("name", Obj ((m, Str s) :: more)) :: pairs))
          :: rest)) sch =
  Throw (ReferenceError "utils").
Proof.
  intros Hm Hw He.
  pose proof (parseExpression_unresolved L sch (KStr "name") m s more Hm He)
    as E.
  unfold new_Query, normalizeCriteria, Lodash.mapValues.
  cbn [Lodash.own_props Lodash.map_props String.eqb Ascii.eqb Bool.eqb].
  unfold parseWhere. cbn [Lodash.isNull].
  rewrite parseClause_props by exact Hw.
  cbn [Lodash.reduce_props].
  rewrite parseClausePair_field by reflexivity.
  change (field_key _ "name") with "name".
  rewrite E. reflexivity.
Qed.

Lemma new_Query_throws_witness :
  In "contains" string_modifiers /\
  Lodash.array_length lodash_4 [("name", Obj [("contains", Str "a")])] = None /\
  Lodash.array_length lodash_4 [("contains", Str "a")] = None /\
  returns (new_Query lodash_4
             (Obj [("where", Obj [("name", Obj [("contains", Str "a")])])])
             []) = false.
Proof.
  split; [left; reflexivity|]. split; [reflexivity|]. split; [reflexivity|].
  exact (f_equal returns
           (new_Query_throws lodash_4 [] "contains" "a" [] [] []
              (or_introl eq_refl) eq_refl eq_refl)).
Defined.

(** ** Clauses: [like] *)

Lemma parseClausePair_like (L : Lodash.version)
  (parse : value -> completion value) (sch : Schema)
  (this obj val : value) (key : string) :
  toLowerCase key = "like" ->
  parseClausePair L parse sch this obj val (KStr key) =
  (likes <- Lodash.reduce (parseLikeClauses L sch) L val
              (Derived (Obj []) []) ;;
   Normal (Lodash.extend L obj likes)).
Proof.
  intros H. unfold parseClausePair. rewrite H.
  change (String.eqb "like" "or") with false. cbv zeta iota.
  assert (Hlog : negb (indexOf logical_operators (Str key) =? -1) = false).
  { unfold logical_operators, indexOf. cbn [indexOf_from strict_equals].
    rewrite !(String.eqb_sym _ key).
    rewrite !(eqb_lower key _ _ H) by (vm_compute; discriminate).
    reflexivity. }
  rewrite Hlog, H. reflexivity.
Qed.

(** A [like] clause is expanded field by field into the level it stands
    in: with operands that are not strings, where the expansion returns,
    the fields appear beside the other fields of the clause. *)
Example like_clause_merges :
  parseClause lodash_4 []
    (Obj [("a", int 1); ("like", Obj [("b", int 5); ("c", Null)])])
  = Normal (Obj [("a", int 1); ("b", Obj [("like", int 5)]);
                 ("c", Obj [("like", Null)])]).
Proof. reflexivity. Qed.

(** C3. A [like] clause over string expressions does not translate: for
    every schema, field and string [s], parsing a clause whose first
    pair is [like: { field: s, ... }], in objects that lodash does not
    read as arrays, throws the ReferenceError of the unbound [utils]
    that [parseExpression(field, { like: s })] raises; so does
    [{ where: { like: { name: "jo%n" } } }] end to end, where
    [{ where: { name: /^jo.*n$/i } }] was to be returned. *)
Theorem like_clause_throws :
  (forall (L : Lodash.version) (sch : Schema) (field s : string)
          (more rest : list (string * value)),
     Lodash.array_length L (("like", Obj ((field, Str s) :: more)) :: rest)
     = None ->
     Lodash.array_length L ((field, Str s) :: more) = None ->
     parseClause L sch (Obj (("like", Obj ((field, Str s) :: more)) :: rest)) =
     Throw (ReferenceError "utils")) /\
  (forall (L : Lodash.version) (sch : Schema),
     normalizeCriteria L sch like_name = Throw (ReferenceError "utils")).
Proof.
  assert (H : forall L sch field s more rest,
             Lodash.array_length L
               (("like", Obj ((field, Str s) :: more)) :: rest) = None ->
             Lodash.array_length L ((field, Str s) :: more) = None ->
             parseClause L sch
               (Obj (("like", Obj ((field, Str s) :: more)) :: rest)) =
             Throw (ReferenceError "utils")).
  { intros L sch field s more rest Hc Hl.
    rewrite parseClause_props by exact Hc.
    cbn [Lodash.reduce_props].
    rewrite parseClausePair_like by reflexivity.
    cbn [Lodash.reduce]. rewrite Hl.
    cbn [Lodash.reduce_props]. unfold parseLikeClauses at 1.
    rewrite (parseExpression_unresolved L sch (KStr field) "like" s [])
      by (try reflexivity; right; left; reflexivity).
    reflexivity. }
  split; [exact H|].
  intros L sch. unfold normalizeCriteria, like_name, Lodash.mapValues.
  cbn [Lodash.own_props Lodash.map_props String.eqb Ascii.eqb Bool.eqb].
  unfold parseWhere. cbn [Lodash.isNull]. rewrite H; reflexivity.
Qed.

Lemma like_clause_throws_witness :
  Lodash.array_length lodash_4
    [("like", Obj [("name", Str "jo%n"); ("age", int 5)]); ("id", int 1)]
  = None /\
  Lodash.array_length lodash_4 [("name", Str "jo%n"); ("age", int 5)] = None /\
  parseClause lodash_4 age_integer
    (Obj [("like", Obj [("name", Str "jo%n"); ("age", int 5)]); ("id", int 1)])
  = Throw (ReferenceError "utils").
Proof.
  split; [reflexivity|]. split; [reflexivity|].
  exact (proj1 like_clause_throws lodash_4 age_integer "name" "jo%n"
           [("age", int 5)] [("id", int 1)] eq_refl eq_refl).
Defined.

(** ** Clauses: the identity field *)

(** C4 fails at [{ like: { _id: 5 }, id: 1 }], whatever the lodash:
    after the [like] pair the output of the level has an [_id], and the
    [id] pair is rewritten to [_id] all the same (and replaces it),
    where the claim leaves it under [id]. *)
Lemma id_rewritten_over_output_id :
  (forall L : Lodash.version,
     parseClausePair L (parseClause L []) [] (this_of L like_then_id) (Obj [])
       (Obj [("_id", int 5)]) (KStr "like") = Normal output_after_like) /\
  Lodash.has output_after_like "_id" = true /\
  (forall L : Lodash.version,
     parseClausePair L (parseClause L []) [] (this_of L like_then_id)
       output_after_like (int 1) (KStr "id") = Normal (Obj [("_id", int 1)])) /\
  (forall L : Lodash.version,
     parseClausePair L (parseClause L []) [] (this_of L like_then_id)
       output_after_like (int 1) (KStr "id")
     <> Normal (set output_after_like "id" (int 1))) /\
  (forall L : Lodash.version,
     parseClause L [] like_then_id = Normal (Obj [("_id", int 1)])).
Proof.
  assert (H : forall L : Lodash.version,
             parseClausePair L (parseClause L []) [] (this_of L like_then_id)
               output_after_like (int 1) (KStr "id")
             = Normal (Obj [("_id", int 1)])).
  { intros [[] f o e]; reflexivity. }
  split; [intros [b f o []]; reflexivity|]. split; [reflexivity|].
  split; [exact H|]. split.
  - intros L E. rewrite H in E. vm_compute in E. discriminate E.
  - intros [[] f o []]; reflexivity.
Qed.

(** C4, as the code has it.  At a clause level, the pair [id: val] is
    stored under [_id] whenever the clause being parsed has no [_id] key
    of its own.  When it has one, the lodash in use decides: where
    [_.reduce] binds its fourth argument as [this], the pair is left
    under [id]; where it does not, the pair is stored under [_id] as
    well, over what the clause's own [_id] has put there.  The
    expression is parsed for the name the pair is stored under, and the
    output built so far is not consulted. *)
Theorem id_rewritten_by_input (L : Lodash.version) (sch : Schema)
  (props : list (string * value)) (obj val w : value) :
  (Lodash.has_name props "_id" = false ->
   parseClausePair L (parseClause L sch) sch (this_of L (Obj props)) obj val
     (KStr "id") =
   (e <- parseExpression L sch (KStr "_id") val ;; Normal (set obj "_id" e))) /\
  (Lodash.has_name props "_id" = true ->
   parseClausePair L (parseClause L sch) sch (this_of L (Obj props)) obj val
     (KStr "id") =
   (let key := if Lodash.binds_this L then "id" else "_id" in
    e <- parseExpression L sch (KStr key) val ;; Normal (set obj key e))) /\
  parseClause L sch (Obj [("id", val)]) =
  (e <- parseExpression L sch (KStr "_id") val ;; Normal (Obj [("_id", e)])) /\
  parseClause L sch (Obj [("_id", w); ("id", val)]) =
  (e1 <- parseExpression L sch (KStr "_id") w ;;
   if Lodash.binds_this L
   then e2 <- parseExpression L sch (KStr "id") val ;;
        Normal (Obj [("_id", e1); ("id", e2)])
   else e2 <- parseExpression L sch (KStr "_id") val ;;
        Normal (Obj [("_id", e2)])).
Proof.
  split; [|split; [|split]].
  - intros Hn. rewrite parseClausePair_field by reflexivity.
    unfold field_key, this_of.
    destruct (Lodash.binds_this L);
      cbn [Lodash.has String.eqb Ascii.eqb Bool.eqb andb];
      rewrite ?Hn; reflexivity.
  - intros Hn. rewrite parseClausePair_field by reflexivity.
    unfold field_key, this_of.
    destruct (Lodash.binds_this L);
      cbn [Lodash.has String.eqb Ascii.eqb Bool.eqb andb];
      rewrite ?Hn; reflexivity.
  - rewrite parseClause_props by reflexivity. rewrite reduce_props_one.
    rewrite parseClausePair_field by reflexivity.
    assert (E : field_key (this_of L (Obj [("id", val)])) "id" = "_id")
      by (unfold this_of; destruct (Lodash.binds_this L); reflexivity).
    rewrite E.
    destruct (parseExpression L sch (KStr "_id") val); reflexivity.
  - rewrite parseClause_props by reflexivity. cbn [Lodash.reduce_props].
    rewrite !parseClausePair_field by reflexivity.
    change (field_key _ "_id") with "_id".
    destruct (parseExpression L sch (KStr "_id") w) as [e1|]; [|reflexivity].
    cbn [bind]. rewrite parseClausePair_field by reflexivity.
    unfold this_of, field_key.
    destruct (Lodash.binds_this L);
      cbn [Lodash.has Lodash.has_name assoc String.eqb Ascii.eqb Bool.eqb
           andb negb].
    + destruct (parseExpression L sch (KStr "id") val); reflexivity.
    + destruct (parseExpression L sch (KStr "_id") val); reflexivity.
Qed.

Lemma id_rewritten_by_input_witness :
  (Lodash.has_name [("name", Str "a"); ("id", int 1)] "_id" = false /\
   parseClausePair lodash_3 (parseClause lodash_3 []) []
     (this_of lodash_3 (Obj [("name", Str "a"); ("id", int 1)]))
     (Obj [("name", Str "a")]) (int 1) (KStr "id") =
   Normal (Obj [("name", Str "a"); ("_id", int 1)])) /\
  (Lodash.has_name [("_id", int 7); ("id", int 1)] "_id" = true /\
   parseClausePair lodash_3 (parseClause lodash_3 []) []
     (this_of lodash_3 (Obj [("_id", int 7); ("id", int 1)]))
     (Obj [("_id", int 7)]) (int 1) (KStr "id") =
   Normal (Obj [("_id", int 7); ("id", int 1)]) /\
   parseClausePair lodash_4 (parseClause lodash_4 []) []
     (this_of lodash_4 (Obj [("_id", int 7); ("id", int 1)]))
     (Obj [("_id", int 7)]) (int 1) (KStr "id") =
   Normal (Obj [("_id", int 1)])).
Proof.
  split; [split; [reflexivity|] | split; [reflexivity | split]].
  - exact (proj1 (id_rewritten_by_input lodash_3 []
                    [("name", Str "a"); ("id", int 1)]
                    (Obj [("name", Str "a")]) (int 1) Null) eq_refl).
  - exact (proj1 (proj2 (id_rewritten_by_input lodash_3 []
                           [("_id", int 7); ("id", int 1)]
                           (Obj [("_id", int 7)]) (int 1) Null)) eq_refl).
  - exact (proj1 (proj2 (id_rewritten_by_input lodash_4 []
                           [("_id", int 7); ("id", int 1)]
                           (Obj [("_id", int 7)]) (int 1) Null)) eq_refl).
Defined.

(** ** Clauses: logical operators *)


Lemma parseValue_passes (L : Lodash.version) (sch : Schema) (field : key)
  (m v : value) :
  passes_strings L sch field = true -> parseValue L sch field m v = Normal v.
Proof.
  unfold passes_strings. intros H.
  destruct v; try reflexivity. rewrite parseValue_string.
  destruct (assoc (key_name field) sch) as [attr|].
  - now rewrite H.
  - apply negb_true_iff in H. now rewrite H.
Qed.



(** ** [parseValue] on strings *)

Lemma parseInt_decimal (s : string) :
  hex_prefixed s = false -> parseInt s = parseInt_radix 10 s.
Proof.
  unfold hex_prefixed, parseInt, parseInt_radix.
  destruct (drop_sign (trimStart s)) as [neg rest]. cbn [snd].
  intros H. change (0 =? 0) with true. change (0 =? 16) with false.
  change (10 =? 0) with false. change (10 =? 16) with false.
  change (10 <? 2) with false. change (36 <? 10) with false.
  cbn [negb andb orb]. rewrite H. reflexivity.
Qed.

Lemma parseInt_hexadecimal (s : string) :
  hex_prefixed s = true -> parseInt s = parseInt_radix 16 s.
Proof.
  unfold hex_prefixed, parseInt, parseInt_radix.
  destruct (drop_sign (trimStart s)) as [neg rest]. cbn [snd].
  intros H. change (0 =? 0) with true. change (0 =? 16) with false.
  change (16 =? 0) with false. change (16 =? 16) with true.
  change (16 <? 2) with false. change (36 <? 16) with false.
  cbn [negb andb orb]. rewrite H. reflexivity.
Qed.

(** The type of a field that [_.has] finds under no key cannot be
    read. *)
Lemma parseValue_unresolved (L : Lodash.version) (sch : Schema) (field : key)
  (m : value) (s : string) :
  resolves L sch field = false ->
  parseValue L sch field m (Str s) =
  Throw (TypeError "Cannot read properties of undefined (reading 'type')").
Proof.
  unfold resolves. intros H. rewrite parseValue_string.
  destruct (assoc (key_name field) sch); [discriminate H|].
  apply negb_false_iff in H. now rewrite H.
Qed.

(** C8 fails at ["0x10"] for a field of type [integer]: the code gives
    16, the base-10 parse of the string is 0. *)
Lemma integer_coercion_not_base_10 :
  (forall L : Lodash.version,
     parseValue L age_integer (KStr "age") Undefined (Str "0x10")
     = Normal (int 16)) /\
  parseInt_radix 10 "0x10" = num 0 /\
  Normal (int 16) <> Normal (Num (parseInt_radix 10 "0x10")).
Proof.
  split; [reflexivity|]. split; [reflexivity|].
  intros H. vm_compute in H. discriminate H.
Qed.

(** C8, as the code has it.  For a field the schema declares with type
    [integer], a string is coerced to [parseInt] of it with no radix:
    the base-10 parse unless the string, after white space and a sign,
    starts with [0x] or [0X], and then the base-16 parse; NaN, when no
    digit can be read, is returned as it is.  For a field the schema
    declares with type [string], and for a field that [_.has] does not
    find in the schema, the string is returned unchanged.  A field that
    [_.has] finds in the schema under no key, as it may a name that is a
    path, has no type to read, and the coercion of a string throws. *)
Theorem integer_coercion (L : Lodash.version) (sch : Schema) (field : key)
  (m : value) (s : string) :
  (forall attr, assoc (key_name field) sch = Some attr ->
     type attr = Some "integer" ->
     parseValue L sch field m (Str s) = Normal (Num (parseInt s))) /\
  (passes_strings L sch field = true ->
     parseValue L sch field m (Str s) = Normal (Str s)) /\
  (resolves L sch field = false ->
     parseValue L sch field m (Str s) =
     Throw (TypeError "Cannot read properties of undefined (reading 'type')"))
  /\
  (hex_prefixed s = false -> parseInt s = parseInt_radix 10 s) /\
  (hex_prefixed s = true -> parseInt s = parseInt_radix 16 s) /\
  parseInt "42" = num 42 /\ parseInt "0x10" = num 16 /\
  parseInt "forty" = NaN.
Proof.
  split; [|split; [|split; [|split; [|split; [|repeat split]]]]].
  - intros attr Ha Ht. rewrite parseValue_string, Ha.
    unfold type_is, translate, type_is. rewrite Ht. reflexivity.
  - apply parseValue_passes.
  - apply parseValue_unresolved.
  - apply parseInt_decimal.
  - apply parseInt_hexadecimal.
Qed.

Lemma integer_coercion_witness :
  (assoc "age" age_integer = Some (Attribute (Some "integer")) /\
   parseValue lodash_4 age_integer (KStr "age") Undefined (Str "42")
   = Normal (int 42)) /\
  (passes_strings lodash_4 [("age", Attribute (Some "string"))] (KStr "age")
   = true /\
   parseValue lodash_4 [("age", Attribute (Some "string"))] (KStr "age")
     Undefined (Str "42") = Normal (Str "42")) /\
  (passes_strings lodash_4 age_integer (KStr "name") = true /\
   parseValue lodash_4 age_integer (KStr "name") Undefined (Str "42")
   = Normal (Str "42")) /\
  (resolves lodash_4 age_integer (KStr "age.type") = false /\
   returns (parseValue lodash_4 age_integer (KStr "age.type") Undefined
              (Str "42")) = false) /\
  (hex_prefixed " -42px" = false /\
   parseInt " -42px" = parseInt_radix 10 " -42px") /\
  (hex_prefixed "0x10" = true /\ parseInt "0x10" = parseInt_radix 16 "0x10").
Proof.
  split; [split; [reflexivity|] | split; [split; [reflexivity|] |
    split; [split; [reflexivity|] | split; [split; [reflexivity|] |
      split; [split; [reflexivity|] | split; [reflexivity|]]]]]].
  - exact (proj1 (integer_coercion lodash_4 age_integer (KStr "age") Undefined
                    "42")
             _ eq_refl eq_refl).
  - exact (proj1 (proj2 (integer_coercion lodash_4
                           [("age", Attribute (Some "string"))]
                           (KStr "age") Undefined "42")) eq_refl).
  - exact (proj1 (proj2 (integer_coercion lodash_4 age_integer (KStr "name")
                           Undefined "42")) eq_refl).
  - exact (f_equal returns
             (proj1 (proj2 (proj2 (integer_coercion lodash_4 age_integer
                                     (KStr "age.type") Undefined "42")))
                eq_refl)).
  - exact (proj1 (proj2 (proj2 (proj2 (integer_coercion lodash_4 []
                                         (KStr "age") Undefined " -42px"))))
             eq_refl).
  - exact (proj1 (proj2 (proj2 (proj2 (proj2 (integer_coercion lodash_4 []
                                                (KStr "age")
                                                Undefined "0x10"))))) eq_refl).
Defined.

(** ** Assignments and the order of enumeration *)

Lemma before_irreflexive (k : string) : before k k = false.
Proof.
  unfold before. destruct (array_index k) as [i|].
  - apply Z.ltb_irrefl.
  - now rewrite String.eqb_refl.
Qed.

Lemma before_neq (a k : string) : before a k = true -> String.eqb k a = false.
Proof.
  intros H. destruct (String.eqb_spec k a) as [->|]; [|reflexivity].
  now rewrite before_irreflexive in H.
Qed.

Lemma update_absent {A : Type} (l : list (string * A)) (k : string) (v : A) :
  (forall a, In a (List.map fst l) -> String.eqb k a = false) ->
  update l k v = None.
Proof.
  induction l as [|[k' v'] l IH]; [reflexivity|].
  intros H. cbn [update].
  rewrite (H k') by now left.
  rewrite IH; [reflexivity|]. intros a Ha. apply H. now right.
Qed.

Lemma insert_index_last {A : Type} (l : list (string * A)) (i : Z)
  (k : string) (v : A) :
  array_index k = Some i ->
  (forall a, In a (List.map fst l) -> before a k = true) ->
  insert_index l i k v = (l ++ [(k, v)])%list.
Proof.
  intros Hk. induction l as [|[k' v'] l IH]; [reflexivity|].
  intros H. cbn [insert_index].
  pose proof (H k' (or_introl eq_refl)) as Hb.
  unfold before in Hb. rewrite Hk in Hb.
  destruct (array_index k') as [j|]; [|discriminate Hb].
  rewrite Hb, IH; [reflexivity|]. intros a Ha. apply H. now right.
Qed.

(** A new property that every property of the object is enumerated
    before goes last. *)
Lemma assign_last {A : Type} (l : list (string * A)) (k : string) (v : A) :
  (forall a, In a (List.map fst l) -> before a k = true) ->
  assign l k v = (l ++ [(k, v)])%list.
Proof.
  intros H. unfold assign.
  rewrite update_absent by (intros a Ha; apply before_neq; now apply H).
  destruct (array_index k) as [i|] eqn:Hk; [|reflexivity].
  now apply insert_index_last.
Qed.

Lemma assign_nil {A : Type} (k : string) (v : A) : assign [] k v = [(k, v)].
Proof. apply (assign_last []). intros a []. Qed.

Lemma enumerated_app (l r : list string) :
  enumerated (l ++ r)%list = true ->
  enumerated l = true /\ enumerated r = true
  /\ forall a b, In a l -> In b r -> before a b = true.
Proof.
  induction l as [|k l IH]; cbn [app enumerated].
  - intros H. repeat split; [exact H | intros a b []].
  - intros H. apply andb_prop in H as [H He]. apply andb_prop in H as [Hp Hb].
    rewrite forallb_app in Hb. apply andb_prop in Hb as [Hbl Hbr].
    destruct (IH He) as [Hl [Hr Hlr]].
    rewrite Hp, Hbl, Hl. repeat split; [exact Hr|].
    intros a b [<- | Ha] Hb.
    + rewrite forallb_forall in Hbr. now apply Hbr.
    + now apply Hlr.
Qed.

Lemma enumerated_not_proto (l : list string) (k : string) :
  enumerated l = true -> In k l -> String.eqb k "__proto__" = false.
Proof.
  induction l as [|a l IH]; [intros _ []|].
  cbn [enumerated]. intros H [<- | Hin].
  - apply andb_prop in H as [H _]. apply andb_prop in H as [H _].
    now apply negb_true_iff in H.
  - apply andb_prop in H as [_ H]. now apply IH.
Qed.

(** Assigning a name that is next in the order of enumeration adds the
    property at the end. *)
Lemma set_last (acc : list (string * value)) (k : string) (v : value)
  (rest : list string) :
  enumerated (List.map fst acc ++ k :: rest)%list = true ->
  set (Obj acc) k v = Obj (acc ++ [(k, v)])%list.
Proof.
  intros H. apply enumerated_app in H as [_ [Hr Hb]].
  unfold set.
  rewrite (enumerated_not_proto (k :: rest) k Hr) by now left.
  rewrite assign_last; [reflexivity|].
  intros a Ha. apply Hb; [exact Ha | now left].
Qed.

(** Pairs that the iteratee stores one by one, each under a name and
    with a value of its own, in the order of enumeration and after what
    the output has, are appended to the output. *)
Lemma reduce_props_maps (step : value -> value -> key -> completion value)
  (g : string * value -> string * value)
  (props acc : list (string * value)) :
  (forall acc' k v, In (k, v) props ->
     step (Obj acc') v (KStr k)
     = Normal (set (Obj acc') (fst (g (k, v))) (snd (g (k, v))))) ->
  enumerated (List.map fst acc
              ++ List.map (fun e => fst (g e)) props)%list = true ->
  Lodash.reduce_props step props (Obj acc)
  = Normal (Obj (acc ++ List.map g props)%list).
Proof.
  revert acc. induction props as [|[k v] props IH]; intros acc Hstep Hd.
  - cbn. now rewrite app_nil_r.
  - cbn [Lodash.reduce_props]. rewrite Hstep by now left. cbn [bind].
    cbn [List.map] in Hd. rewrite (set_last _ _ _ _ Hd).
    rewrite IH.
    + cbn [List.map]. rewrite <- app_assoc.
      now rewrite <- surjective_pairing.
    + intros acc' k' v' Hin. apply Hstep. now right.
    + rewrite map_app, <- app_assoc. exact Hd.
Qed.

(** ** [parseSort] *)




Lemma parseSortPair_entry (sort order : value) (field : string) :
  parseSortPair sort order (KStr field) =
  Normal (set sort (sort_name field)
            (int (if descending order then -1 else 1))).
Proof.
  unfold parseSortPair, sort_name, descending, int. cbn [key_is].
  destruct (String.eqb field "id"); cbn [key_name];
    destruct (-1 <? indexOf [Num (num 0); Num (num (-1))] order);
    reflexivity.
Qed.

(** Entries in the order of enumeration, after what the output has, are
    appended to the output in order. *)
Lemma reduce_props_parseSortPair (props acc : list (string * value)) :
  enumerated (List.map fst acc
              ++ List.map (fun e => sort_name (fst e)) props)%list = true ->
  Lodash.reduce_props parseSortPair props (Obj acc) =
  Normal (Obj (acc ++ List.map sort_entry props)%list).
Proof.
  intros H. apply reduce_props_maps; [|exact H].
  intros acc' k v _. apply parseSortPair_entry.
Qed.




(* ===================================================================== *)
(** * Further properties *)
(* ===================================================================== *)

(** ** The escape function *)

Lemma append_assoc (a b c : string) : (a ++ b) ++ c = a ++ (b ++ c).
Proof. induction a as [|x a IH]; cbn; [reflexivity | now rewrite IH]. Qed.

Lemma length_append (a b : string) :
  String.length (a ++ b) = (String.length a + String.length b)%nat.
Proof. induction a as [|x a IH]; cbn; [reflexivity | now rewrite IH]. Qed.

Lemma backslash_is_metacharacter (c : ascii) :
  char_in metacharacters c = false -> Ascii.eqb c "\" = false.
Proof.
  intros H. destruct (Ascii.eqb_spec c "\") as [-> |]; [|reflexivity].
  vm_compute in H. discriminate H.
Qed.

(** X1. Escaping loses nothing: dropping each escaping backslash gives
    the string back, for every string. *)
Theorem unescape_escape (s : string) : unescape (escape s) = s.
Proof.
  unfold escape. induction s as [|c r IH]; [reflexivity|].
  cbn [replace_chars]. destruct (char_in metacharacters c) eqn:E.
  - cbn. now rewrite IH.
  - cbn [append unescape]. rewrite (backslash_is_metacharacter c E).
    now rewrite IH.
Qed.

(** X2. The escaped string is longer than the string by exactly the
    number of its metacharacters; so a string is left as it is exactly
    when it has none. *)
Theorem escape_length (s : string) :
  String.length (escape s)
  = (String.length s + metacharacter_count s)%nat
  /\ (escape s = s <-> metacharacter_count s = O).
Proof.
  assert (L : forall t, String.length (escape t)
                        = (String.length t + metacharacter_count t)%nat).
  { unfold escape. induction t as [|c r IH]; [reflexivity|].
    cbn [replace_chars metacharacter_count].
    rewrite length_append, IH.
    destruct (char_in metacharacters c); cbn; lia. }
  split; [apply L|]. split.
  - intros E. pose proof (L s) as Hl. rewrite E in Hl. lia.
  - unfold escape. induction s as [|c r IH]; [reflexivity|].
    cbn [replace_chars metacharacter_count].
    destruct (char_in metacharacters c); [discriminate|].
    intros H. cbn. now rewrite IH.
Qed.

Lemma escape_length_witness :
  metacharacter_count "jo n" = O /\ escape "jo n" = "jo n".
Proof.
  split; [reflexivity|].
  exact (proj2 (proj2 (escape_length "jo n")) eq_refl).
Defined.

(** X3. Escaping goes through concatenation: the pattern of a
    concatenation is the concatenation of the patterns. *)
Theorem escape_append (a b : string) :
  escape (a ++ b) = escape a ++ escape b.
Proof.
  unfold escape. induction a as [|c r IH]; [reflexivity|].
  cbn [append replace_chars]. now rewrite IH, append_assoc.
Qed.

(** ** [parseValue] *)
(** ** [parseValue] *)

Lemma translate_not_string (attr : attribute) (s : string) (v : value) :
  translate attr s = Some v -> Lodash.isString v = false.
Proof.
  unfold translate.
  repeat match goal with
         | |- (if ?b then _ else _) = _ -> _ => destruct b
         end; intros H; try discriminate H; injection H as <-; reflexivity.
Qed.

Lemma parseValue_twice (L : Lodash.version) (sch : Schema) (field : key)
  (m m' v w : value) :
  parseValue L sch field m v = Normal w ->
  parseValue L sch field m' w = Normal w.
Proof.
  destruct v; try (intros H; injection H as <-; reflexivity).
  rewrite (parseValue_string L sch field m s).
  destruct (assoc (key_name field) sch) as [attr|] eqn:Ea.
  - destruct (type_is attr "string") eqn:Et.
    + intros H. injection H as <-.
      now rewrite parseValue_string, Ea, Et.
    + destruct (translate attr s) as [v|] eqn:Ev; intros H; injection H as <-.
      * apply parseValue_not_string. now apply translate_not_string in Ev.
      * now rewrite parseValue_string, Ea, Et, Ev.
  - destruct (Lodash.has_field L sch field) eqn:Eh; [discriminate|].
    intros H. injection H as <-. now rewrite parseValue_string, Ea, Eh.
Qed.

(** X4. Coercion is idempotent: when the coercion of a value returns,
    coercing what it returns for the same field returns it unchanged,
    whatever the two modifiers are; and a coercion never returns a
    string other than the one it was given. *)
Theorem parseValue_idempotent (L : Lodash.version) (sch : Schema)
  (field : key) (m m' v w : value) :
  parseValue L sch field m v = Normal w ->
  parseValue L sch field m' w = Normal w
  /\ (Lodash.isString w = true -> w = v).
Proof.
  intros H. split; [now apply (parseValue_twice L sch field m m' v)|].
  destruct v; try (injection H as <-; reflexivity).
  rewrite (parseValue_string L sch field m s) in H.
  destruct (assoc (key_name field) sch) as [attr|].
  - destruct (type_is attr "string"); [now injection H as <-|].
    destruct (translate attr s) as [v|] eqn:Ev; injection H as <-;
      [|reflexivity].
    apply translate_not_string in Ev. rewrite Ev. discriminate.
  - destruct (Lodash.has_field L sch field); [discriminate H|].
    now injection H as <-.
Qed.

Lemma parseValue_idempotent_witness :
  parseValue lodash_4 age_integer (KStr "age") Undefined (Str "42")
  = Normal (int 42) /\
  parseValue lodash_4 age_integer (KStr "age") (Str "$ne") (int 42)
  = Normal (int 42) /\
  parseValue lodash_4 age_integer (KStr "name") Undefined (Str "42")
  = Normal (Str "42") /\
  Lodash.isString (Str "42") = true /\ Str "42" = Str "42".
Proof.
  split; [reflexivity|]. split; [|split; [reflexivity | split; [reflexivity|]]].
  - exact (proj1 (parseValue_idempotent lodash_4 age_integer (KStr "age")
                    Undefined (Str "$ne") (Str "42") (int 42) eq_refl)).
  - exact (proj2 (parseValue_idempotent lodash_4 age_integer (KStr "name")
                    Undefined Undefined (Str "42") (Str "42") eq_refl)
             eq_refl).
Defined.

Lemma parseValue_typed (L : Lodash.version) (sch : Schema) (field : key)
  (m : value) (s t : string) (attr : attribute) :
  assoc (key_name field) sch = Some attr -> type attr = Some t ->
  String.eqb t "string" = false ->
  parseValue L sch field m (Str s) =
  Normal (match translate attr s with Some v => v | None => Str s end).
Proof.
  intros Ha Ht Hs. rewrite parseValue_string, Ha.
  unfold type_is at 1. rewrite Ht, Hs. reflexivity.
Qed.

(** X5. For a field declared [boolean], the strings ["false"] and
    ["true"], spelled so, become the booleans; every other string is
    returned as it is. *)
Theorem boolean_coercion (L : Lodash.version) (sch : Schema) (field : key)
  (m : value) (s : string) (attr : attribute) :
  assoc (key_name field) sch = Some attr -> type attr = Some "boolean" ->
  parseValue L sch field m (Str s) =
  Normal (if String.eqb s "false" then Bool false
          else if String.eqb s "true" then Bool true
          else Str s).
Proof.
  intros Ha Ht. rewrite (parseValue_typed _ _ _ _ _ _ _ Ha Ht eq_refl).
  unfold translate, type_is. rewrite Ht. cbn [String.eqb Ascii.eqb Bool.eqb].
  cbn [andb]. rewrite !andb_false_r, !andb_true_r. cbn [orb].
  destruct (String.eqb s "false"); [reflexivity|].
  destruct (String.eqb s "true"); reflexivity.
Qed.

Lemma boolean_coercion_witness :
  assoc "done" [("done", Attribute (Some "boolean"))]
  = Some (Attribute (Some "boolean")) /\
  parseValue lodash_4 [("done", Attribute (Some "boolean"))] (KStr "done")
    Undefined (Str "true") = Normal (Bool true) /\
  parseValue lodash_4 [("done", Attribute (Some "boolean"))] (KStr "done")
    Undefined (Str "TRUE") = Normal (Str "TRUE").
Proof.
  split; [reflexivity|]. split.
  - exact (boolean_coercion lodash_4 [("done", Attribute (Some "boolean"))]
             (KStr "done") Undefined "true" _ eq_refl eq_refl).
  - exact (boolean_coercion lodash_4 [("done", Attribute (Some "boolean"))]
             (KStr "done") Undefined "TRUE" _ eq_refl eq_refl).
Defined.

(** X6. For a field declared [datetime], every string, whatever its
    form, becomes the Date that [new Date] makes of it. *)
Theorem datetime_coercion (L : Lodash.version) (sch : Schema) (field : key)
  (m : value) (s : string) (attr : attribute) :
  assoc (key_name field) sch = Some attr -> type attr = Some "datetime" ->
  parseValue L sch field m (Str s) = Normal (Date (DateParse s)).
Proof.
  intros Ha Ht. rewrite (parseValue_typed _ _ _ _ _ _ _ Ha Ht eq_refl).
  unfold translate, type_is. rewrite Ht. cbn [String.eqb Ascii.eqb Bool.eqb].
  rewrite orb_true_r. reflexivity.
Qed.

Lemma datetime_coercion_witness :
  assoc "at" [("at", Attribute (Some "datetime"))]
  = Some (Attribute (Some "datetime")) /\
  parseValue lodash_4 [("at", Attribute (Some "datetime"))] (KStr "at")
    Undefined (Str "yesterday") = Normal (Date (DateParse "yesterday")).
Proof.
  split; [reflexivity|].
  exact (datetime_coercion lodash_4 [("at", Attribute (Some "datetime"))]
           (KStr "at") Undefined "yesterday" _ eq_refl eq_refl).
Defined.

(** X7. For a field declared [date], a string in the form of an ISO
    timestamp becomes the Date that [new Date] makes of it, a string in
    the form of a calendar date becomes the local Date of its year, its
    month less one and its day, and every other string is returned as it
    is. *)
Theorem date_coercion (L : Lodash.version) (sch : Schema) (field : key)
  (m : value) (s : string) (attr : attribute) :
  assoc (key_name field) sch = Some attr -> type attr = Some "date" ->
  parseValue L sch field m (Str s) =
  Normal (if test iso_timestamp s then Date (DateParse s)
          else if test calendar_date s then
            Date (DateLocal (to_number (nth 0 (split "-" s) ""))
                            (to_number (nth 1 (split "-" s) "") - 1)
                            (to_number (nth 2 (split "-" s) "")))
          else Str s).
Proof.
  intros Ha Ht. rewrite (parseValue_typed _ _ _ _ _ _ _ Ha Ht eq_refl).
  unfold translate, type_is. rewrite Ht. cbn [String.eqb Ascii.eqb Bool.eqb].
  rewrite !andb_true_r, !andb_false_r, orb_false_r.
  destruct (test iso_timestamp s); [reflexivity|].
  destruct (test calendar_date s); reflexivity.
Qed.

Lemma date_coercion_witness :
  assoc "born" [("born", Attribute (Some "date"))]
  = Some (Attribute (Some "date")) /\
  parseValue lodash_4 [("born", Attribute (Some "date"))] (KStr "born")
    Undefined (Str "1999-12-31") = Normal (Date (DateLocal 1999 11 31)) /\
  parseValue lodash_4 [("born", Attribute (Some "date"))] (KStr "born")
    Undefined (Str "12/31/1999") = Normal (Str "12/31/1999").
Proof.
  split; [reflexivity|]. split.
  - exact (date_coercion lodash_4 [("born", Attribute (Some "date"))]
             (KStr "born") Undefined "1999-12-31" _ eq_refl eq_refl).
  - exact (date_coercion lodash_4 [("born", Attribute (Some "date"))]
             (KStr "born") Undefined "12/31/1999" _ eq_refl eq_refl).
Defined.

(** X8. For a field whose attribute has no type, or a type that is none
    of [integer], [float], [date], [datetime] and [boolean], every
    string is returned as it is. *)
Theorem other_types_unchanged (L : Lodash.version) (sch : Schema)
  (field : key) (m : value) (s : string) (attr : attribute) :
  assoc (key_name field) sch = Some attr -> other_type attr = true ->
  parseValue L sch field m (Str s) = Normal (Str s).
Proof.
  intros Ha Ho. rewrite parseValue_string, Ha.
  destruct (type_is attr "string"); [reflexivity|].
  unfold other_type in Ho. unfold translate, type_is.
  destruct (type attr) as [t|].
  - apply negb_true_iff in Ho. unfold coerced_types in Ho.
    cbn [existsb] in Ho.
    repeat (apply orb_false_elim in Ho as [? Ho]).
    repeat match goal with H : String.eqb t _ = false |- _ =>
             rewrite H; clear H end.
    rewrite !andb_false_r. reflexivity.
  - rewrite !andb_false_r. reflexivity.
Qed.

Lemma other_types_unchanged_witness :
  assoc "meta" [("meta", Attribute (Some "json"))]
  = Some (Attribute (Some "json")) /\
  other_type (Attribute (Some "json")) = true /\
  parseValue lodash_4 [("meta", Attribute (Some "json"))] (KStr "meta")
    Undefined (Str "42") = Normal (Str "42").
Proof.
  split; [reflexivity|]. split; [reflexivity|].
  exact (other_types_unchanged lodash_4 [("meta", Attribute (Some "json"))]
           (KStr "meta") Undefined "42" _ eq_refl eq_refl).
Defined.

(** ** The iteratee of [parseExpression], case by case *)

Lemma string_modifier_cases (m s : string) :
  string_modifier m s =
  if is_string_modifier m then Some (Throw (ReferenceError "utils"))
  else None.
Proof.
  unfold string_modifier, is_string_modifier, string_modifiers.
  cbn [existsb].
  destruct (String.eqb m "contains"); [reflexivity|].
  destruct (String.eqb m "like"); [reflexivity|].
  destruct (String.eqb m "startsWith"); [reflexivity|].
  destruct (String.eqb m "endsWith"); reflexivity.
Qed.

Lemma parseModifier_cases (L : Lodash.version)
  (parse : value -> completion value) (sch : Schema)
  (field : key) (obj v : value) (m : string) :
  parseModifier L parse sch field obj v (KStr m) =
  if negation_key m then
    if Lodash.isPlainObject v && negb (Lodash.has v "_bsontype")
    then e <- parse v ;; Normal (set obj "$not" e)
    else c <- coerce L sch field v ;;
         Normal (set obj (if Lodash.isArray v then "$nin" else "$ne") c)
  else if Lodash.isString v && is_string_modifier m
  then Throw (ReferenceError "utils")
  else c <- coerce L sch field v ;; Normal (set obj (operator_key m) c).
Proof.
  unfold parseModifier, negation_key.
  destruct (String.eqb m "!" || String.eqb (toLowerCase m) "not").
  - rewrite parseValue_coerce. reflexivity.
  - assert (E : match v with
                | Str s => string_modifier m s
                | _ => None
                end
                = if Lodash.isString v && is_string_modifier m
                  then Some (Throw (ReferenceError "utils")) else None).
    { destruct v; try reflexivity. apply string_modifier_cases. }
    rewrite E. destruct (Lodash.isString v && is_string_modifier m);
      [reflexivity|].
    rewrite parseValue_coerce. unfold operator_key.
    repeat match goal with
           | |- (if ?b then _ else _) = _ => destruct b; [reflexivity|]
           end.
    reflexivity.
Qed.

(** ** Induction on values *)

Lemma value_induction (P : value -> Prop) :
  P Undefined -> P Null -> (forall b, P (Bool b)) -> (forall x, P (Num x)) ->
  (forall s, P (Str s)) ->
  (forall items, Forall P items -> P (Arr items)) ->
  (forall props, Forall (fun e => P (snd e)) props -> P (Obj props)) ->
  (forall source flags, P (RegExp source flags)) -> (forall d, P (Date d)) ->
  forall v, P v.
Proof.
  intros HU HN HB HNum HS HA HO HR HD.
  refine (fix IH (v : value) : P v :=
            match v with
            | Undefined => HU
            | Null => HN
            | Bool b => HB b
            | Num x => HNum x
            | Str s => HS s
            | Arr items =>
                HA items
                  ((fix all (l : list value) : Forall P l :=
                      match l with
                      | [] => Forall_nil P
                      | x :: l' => Forall_cons x (IH x) (all l')
                      end) items)
            | Obj props =>
                HO props
                  ((fix all (l : list (string * value))
                      : Forall (fun e => P (snd e)) l :=
                      match l with
                      | [] => Forall_nil _
                      | e :: l' => Forall_cons e (IH (snd e)) (all l')
                      end) props)
            | RegExp source flags => HR source flags
            | Date d => HD d
            end).
Qed.

(** ** [parseExpression]: when it returns, and what it throws *)

(** The coercion of an operand returns or throws by whether the type of
    the field can be read. *)
Lemma coerce_outcome (L : Lodash.version) (sch : Schema) (field : key)
  (v : value) :
  (negb (Lodash.isString v) || resolves L sch field = true
   /\ exists c, coerce L sch field v = Normal c)
  \/ (negb (Lodash.isString v) || resolves L sch field = false
      /\ coerce L sch field v =
         Throw (TypeError
                  "Cannot read properties of undefined (reading 'type')")).
Proof.
  destruct (negb (Lodash.isString v) || resolves L sch field) eqn:E.
  - left. split; [reflexivity|]. apply coerce_returns.
    apply orb_prop in E as [E | E]; [left | now right].
    now apply negb_true_iff in E.
  - right. split; [reflexivity|].
    apply orb_false_elim in E as [Es Er].
    destruct v; try discriminate Es.
    now apply parseValue_unresolved.
Qed.

Lemma elements_none (props : list (string * value)) (n : Z) :
  (n <=? 0) = true -> Lodash.elements props n = [].
Proof.
  intros H. apply Z.leb_le in H. unfold Lodash.elements.
  replace (Z.to_nat n) with O by lia. reflexivity.
Qed.

Lemma elements_some (props : list (string * value)) (n : Z) :
  (n <=? 0) = false -> exists x l, Lodash.elements props n = x :: l.
Proof.
  intros H. apply Z.leb_gt in H. unfold Lodash.elements.
  destruct (Z.to_nat n) as [|k] eqn:E; [lia|].
  cbn [seq List.map]. eauto.
Qed.

Lemma parseExpression_outcome (L : Lodash.version) (sch : Schema)
  (field : key) (e : value) :
  (translates L (resolves L sch field) e = true
   /\ exists r, parseExpression L sch field e = Normal r)
  \/ (translates L (resolves L sch field) e = false
      /\ exists err, parseExpression L sch field e = Throw err
                     /\ expression_error err).
Proof.
  induction e as [| | b | x | s | items _ | props IH | source flags | d]
    using value_induction;
    try (left; split; [reflexivity | eexists; reflexivity]).
  - cbn [translates parseExpression].
    destruct (coerce_outcome L sch field (Str s)) as [[E [c Hc]] | [E Hc]];
      cbn [Lodash.isString negb orb] in E; rewrite E.
    + left. split; [reflexivity|]. exists c. exact Hc.
    + right. split; [reflexivity|]. eexists. split; [exact Hc|].
      right. now right.
  - cbn [parseExpression translates].
    destruct (Lodash.array_length L props) as [n|].
    { destruct (n <=? 0) eqn:En.
      - left. split; [reflexivity|].
        rewrite (elements_none props n En). eexists; reflexivity.
      - right. split; [reflexivity|].
        destruct (elements_some props n En) as [x [l ->]].
        eexists. split; [reflexivity|]. right. now left. }
    generalize (Obj []) as acc.
    induction props as [|[m v] props IHprops]; intros acc.
    + left. split; [reflexivity | eexists; reflexivity].
    + inversion IH as [|? ? Hv Hrest]; subst. cbn [snd] in Hv.
      specialize (IHprops Hrest).
      cbn [Lodash.reduce_props]. rewrite parseModifier_cases.
      destruct (negation_key m).
      * destruct (Lodash.isPlainObject v && negb (Lodash.has v "_bsontype")).
        -- destruct Hv as [[-> [r ->]] | [-> [err [-> Herr]]]].
           ++ cbn [bind andb]. apply IHprops.
           ++ right. split; [reflexivity|].
              exists err. split; [reflexivity | exact Herr].
        -- destruct (coerce_outcome L sch field v) as [[-> [c ->]] | [-> ->]].
           ++ cbn [bind andb]. apply IHprops.
           ++ right. split; [reflexivity|]. eexists. split; [reflexivity|].
              right. now right.
      * destruct (Lodash.isString v && is_string_modifier m).
        -- right. split; [reflexivity|]. eexists. split; [reflexivity|].
           now left.
        -- destruct (coerce_outcome L sch field v) as [[-> [c ->]] | [-> ->]].
           ++ cbn [bind andb negb]. apply IHprops.
           ++ right. split; [reflexivity|]. eexists. split; [reflexivity|].
              right. now right.
Qed.

(** X9. [parseExpression] returns exactly for the expressions that
    [translates] describes, and these are found without running the
    parser: a string translates when the type of the field can be read;
    an object that lodash reads as an array, when it has no index to go
    through; any other object, when no string-match modifier has a
    string operand, every other string operand is of a field whose type
    can be read, and the objects under negating modifiers translate;
    everything else always. *)
Theorem parseExpression_returns (L : Lodash.version) (sch : Schema)
  (field : key) (e : value) :
  returns (parseExpression L sch field e)
  = translates L (resolves L sch field) e.
Proof.
  destruct (parseExpression_outcome L sch field e)
    as [[-> [r ->]] | [-> [err [-> _]]]]; reflexivity.
Qed.

(** X10. [parseExpression] throws one of three errors and no other: the
    ReferenceError of the unbound [utils], the TypeError of a Number
    where a modifier is expected, and the TypeError of reading the type
    of a field that is found in the schema under no key. *)
Theorem parseExpression_throws_only (L : Lodash.version) (sch : Schema)
  (field : key) (e : value) (err : error) :
  parseExpression L sch field e = Throw err -> expression_error err.
Proof.
  intros H.
  destruct (parseExpression_outcome L sch field e)
    as [[_ [r E]] | [_ [err' [E Herr]]]];
    rewrite E in H; [discriminate H | now injection H as <-].
Qed.

Lemma parseExpression_throws_only_witness :
  parseExpression lodash_4 [] (KStr "name")
    (Obj [("!", Obj [("$gt", Null); ("endsWith", Str "x")])])
  = Throw (ReferenceError "utils") /\
  parseExpression lodash_4 [] (KStr "name")
    (Obj [("!", Obj [("length", int 2)])])
  = Throw (TypeError "modifier.toLowerCase is not a function") /\
  parseExpression lodash_4 age_integer (KStr "age.type")
    (Obj [("!", Str "5")])
  = Throw (TypeError "Cannot read properties of undefined (reading 'type')") /\
  expression_error (ReferenceError "utils").
Proof.
  split; [reflexivity|]. split; [reflexivity|]. split; [reflexivity|].
  exact (parseExpression_throws_only lodash_4 [] (KStr "name")
           (Obj [("!", Obj [("$gt", Null); ("endsWith", Str "x")])])
           (ReferenceError "utils") eq_refl).
Defined.

(** ** Comparison aliases in one expression *)

Lemma parseModifier_alias (L : Lodash.version)
  (parse : value -> completion value) (sch : Schema)
  (field : key) (obj v : value) (m op : string) :
  alias m op ->
  parseModifier L parse sch field obj v (KStr m) =
  (c <- coerce L sch field v ;; Normal (set obj op c)).
Proof.
  intros [[-> H] | [[-> H] | [[-> H] | [-> H]]]].
  - now apply parseModifier_lt.
  - now apply parseModifier_lte.
  - now apply parseModifier_gt.
  - now apply parseModifier_gte.
Qed.

Lemma alias_name_not_length (m op : string) :
  alias m op -> String.eqb "length" m = false.
Proof.
  intros [[_ H] | [[_ H] | [[_ H] | [_ H]]]];
    apply (alias_not_length _ _ _ _ H);
    try reflexivity; vm_compute; discriminate.
Qed.

Lemma alias_operator (m op : string) :
  alias m op -> op = "$lt" \/ op = "$lte" \/ op = "$gt" \/ op = "$gte".
Proof. intros [[-> _] | [[-> _] | [[-> _] | [-> _]]]]; auto. Qed.

Lemma array_length_two (L : Lodash.version) (m1 m2 : string) (v1 v2 : value) :
  String.eqb "length" m1 = false -> String.eqb "length" m2 = false ->
  Lodash.array_length L [(m1, v1); (m2, v2)] = None.
Proof. intros H1 H2. now rewrite !array_length_cons. Qed.

(** X11. When two modifiers of an expression are aliases of the same
    comparison operator, both operands are coerced, in order, and the
    operator gets the operand of the later one. *)
Theorem later_alias_wins (L : Lodash.version) (sch : Schema) (field : key)
  (m1 m2 op : string) (v1 v2 : value) :
  alias m1 op -> alias m2 op ->
  parseExpression L sch field (Obj [(m1, v1); (m2, v2)]) =
  (_ <- coerce L sch field v1 ;;
   c <- coerce L sch field v2 ;; Normal (Obj [(op, c)])).
Proof.
  intros H1 H2.
  rewrite parseExpression_props
    by (apply array_length_two; eapply alias_name_not_length; eassumption).
  cbn [Lodash.reduce_props].
  rewrite (parseModifier_alias _ _ _ _ _ _ _ _ H1).
  destruct (coerce L sch field v1) as [c1|]; [|reflexivity]. cbn [bind].
  rewrite (parseModifier_alias _ _ _ _ _ _ _ _ H2).
  destruct (coerce L sch field v2) as [c2|]; [|reflexivity]. cbn [bind].
  destruct (alias_operator _ _ H1) as [-> | [-> | [-> | ->]]]; reflexivity.
Qed.

Lemma later_alias_wins_witness :
  alias "<" "$lt" /\ alias "LT" "$lt" /\
  parseExpression lodash_4 age_integer (KStr "age")
    (Obj [("<", Str "5"); ("LT", Str "7")]) =
  Normal (Obj [("$lt", int 7)]).
Proof.
  assert (H1 : alias "<" "$lt") by (left; split; [reflexivity | now left]).
  assert (H2 : alias "LT" "$lt")
    by (left; split; [reflexivity | now right; right]).
  split; [exact H1|]. split; [exact H2|].
  exact (later_alias_wins lodash_4 age_integer (KStr "age") "<" "LT" "$lt"
           (Str "5") (Str "7") H1 H2).
Defined.

(** X12. Two modifiers that are aliases of different comparison
    operators give a document with both operators, in the order of the
    modifiers, each around its own coerced operand. *)
Theorem comparison_range (L : Lodash.version) (sch : Schema) (field : key)
  (m1 m2 op1 op2 : string) (v1 v2 : value) :
  alias m1 op1 -> alias m2 op2 -> op1 <> op2 ->
  parseExpression L sch field (Obj [(m1, v1); (m2, v2)]) =
  (c1 <- coerce L sch field v1 ;;
   c2 <- coerce L sch field v2 ;; Normal (Obj [(op1, c1); (op2, c2)])).
Proof.
  intros H1 H2 Hne.
  rewrite parseExpression_props
    by (apply array_length_two; eapply alias_name_not_length; eassumption).
  cbn [Lodash.reduce_props].
  rewrite (parseModifier_alias _ _ _ _ _ _ _ _ H1).
  destruct (coerce L sch field v1) as [c1|]; [|reflexivity]. cbn [bind].
  rewrite (parseModifier_alias _ _ _ _ _ _ _ _ H2).
  destruct (coerce L sch field v2) as [c2|]; [|reflexivity]. cbn [bind].
  destruct (alias_operator _ _ H1) as [-> | [-> | [-> | ->]]];
    destruct (alias_operator _ _ H2) as [-> | [-> | [-> | ->]]];
    try reflexivity; now contradiction Hne.
Qed.

Lemma comparison_range_witness :
  alias ">=" "$gte" /\ alias "lessThan" "$lt" /\ "$gte" <> "$lt" /\
  parseExpression lodash_4 age_integer (KStr "age")
    (Obj [(">=", Str "18"); ("lessThan", Str "65")]) =
  Normal (Obj [("$gte", int 18); ("$lt", int 65)]).
Proof.
  assert (H1 : alias ">=" "$gte")
    by (right; right; right; split; [reflexivity | now left]).
  assert (H2 : alias "lessThan" "$lt")
    by (left; split; [reflexivity | now right; left]).
  assert (H3 : "$gte" <> "$lt") by discriminate.
  split; [exact H1|]. split; [exact H2|]. split; [exact H3|].
  exact (comparison_range lodash_4 age_integer (KStr "age") ">=" "lessThan"
           "$gte" "$lt" (Str "18") (Str "65") H1 H2 H3).
Defined.

(** ** Operators of the store *)

Lemma toLowerCase_dollar (r : string) :
  exists r', toLowerCase (String "$" r) = String "$" r'.
Proof. destruct r as [|c2 [|c3 r3]]; eexists; reflexivity. Qed.

(** X13. A modifier that starts with [$], such as [$exists], [$regex] or
    [$lt] itself, is never reinterpreted: whatever the operand, the
    expression translates to the same modifier around the coerced
    operand. *)
Theorem dollar_modifier_kept (L : Lodash.version) (sch : Schema) (field : key)
  (r : string) (v : value) :
  parseExpression L sch field (Obj [(String "$" r, v)]) =
  (c <- coerce L sch field v ;; Normal (Obj [(String "$" r, c)])).
Proof.
  rewrite parseExpression_one, parseModifier_cases by reflexivity.
  destruct (toLowerCase_dollar r) as [r' E].
  assert (Hn : negation_key (String "$" r) = false).
  { unfold negation_key. rewrite E. reflexivity. }
  assert (Hs : is_string_modifier (String "$" r) = false) by reflexivity.
  assert (Ho : operator_key (String "$" r) = String "$" r).
  { unfold operator_key. rewrite E. reflexivity. }
  rewrite Hn, Hs, Ho, andb_false_r.
  destruct (coerce L sch field v) as [c|]; [|reflexivity]. cbn [bind].
  unfold set. change (String.eqb (String "$" r) "__proto__") with false.
  now rewrite assign_nil.
Qed.

(** ** What an assignment keeps *)

Lemma update_found {A : Type} (l r : list (string * A)) (k : string) (v : A) :
  update l k v = Some r ->
  List.map fst r = List.map fst l
  /\ existsb (String.eqb k) (List.map fst l) = true.
Proof.
  revert r. induction l as [|[k' v'] l IH]; intros r; cbn; [discriminate|].
  destruct (String.eqb k k').
  - intros H. injection H as <-. split; reflexivity.
  - destruct (update l k v) as [r'|]; [|discriminate].
    intros H. injection H as <-. destruct (IH r' eq_refl) as [Hk He].
    cbn. now rewrite Hk, He.
Qed.

Lemma update_not_found {A : Type} (l : list (string * A)) (k : string)
  (v : A) :
  update l k v = None -> existsb (String.eqb k) (List.map fst l) = false.
Proof.
  induction l as [|[k' v'] l IH]; cbn; [reflexivity|].
  destruct (String.eqb k k'); [discriminate|].
  destruct (update l k v); [discriminate|]. intros _. now apply IH.
Qed.

Lemma existsb_insert_index {A : Type} (a k : string) (i : Z) (v : A)
  (l : list (string * A)) :
  existsb (String.eqb a) (List.map fst (insert_index l i k v))
  = existsb (String.eqb a) (List.map fst l) || String.eqb a k.
Proof.
  induction l as [|[k' v'] l IH]; cbn.
  - apply orb_comm.
  - destruct (array_index k') as [j|]; [destruct (j <? i)|]; cbn;
      rewrite ?IH; destruct (String.eqb a k'), (String.eqb a k);
      cbn; rewrite ?orb_true_r, ?orb_false_r; reflexivity.
Qed.

Lemma existsb_assign {A : Type} (a k : string) (v : A)
  (l : list (string * A)) :
  existsb (String.eqb a) (List.map fst (assign l k v))
  = existsb (String.eqb a) (List.map fst l) || String.eqb a k.
Proof.
  unfold assign. destruct (update l k v) as [r|] eqn:E.
  - apply update_found in E as [-> He].
    destruct (String.eqb_spec a k) as [->|].
    + now rewrite He.
    + now rewrite orb_false_r.
  - destruct (array_index k) as [i|].
    + apply existsb_insert_index.
    + rewrite map_app, existsb_app. cbn. now rewrite orb_false_r.
Qed.

Lemma Forall_update {A : Type} (P : string * A -> Prop) (k : string) (v : A)
  (l r : list (string * A)) :
  Forall P l -> P (k, v) -> update l k v = Some r -> Forall P r.
Proof.
  intros Hl Hv. revert r.
  induction Hl as [|[k' v'] l Hx Hl IH]; intros r; cbn; [discriminate|].
  destruct (String.eqb_spec k k') as [<-|].
  - intros H. injection H as <-. now constructor.
  - destruct (update l k v) as [r'|]; [|discriminate].
    intros H. injection H as <-. constructor; auto.
Qed.

Lemma Forall_insert_index {A : Type} (P : string * A -> Prop) (k : string)
  (i : Z) (v : A) (l : list (string * A)) :
  Forall P l -> P (k, v) -> Forall P (insert_index l i k v).
Proof.
  intros Hl Hv. induction Hl as [|[k' v'] l Hx Hl IH]; cbn.
  - now constructor.
  - destruct (array_index k') as [j|]; [destruct (j <? i)|];
      repeat constructor; auto.
Qed.

Lemma Forall_assign {A : Type} (P : string * A -> Prop) (k : string) (v : A)
  (l : list (string * A)) :
  Forall P l -> P (k, v) -> Forall P (assign l k v).
Proof.
  intros Hl Hv. unfold assign. destruct (update l k v) as [r|] eqn:E.
  - now apply (Forall_update P k v l).
  - destruct (array_index k) as [i|].
    + now apply Forall_insert_index.
    + apply Forall_app. split; [exact Hl | now constructor].
Qed.

Lemma assoc_update {A : Type} (a k : string) (v : A)
  (l r : list (string * A)) :
  update l k v = Some r ->
  assoc a r = if String.eqb a k then Some v else assoc a l.
Proof.
  revert r. induction l as [|[k' v'] l IH]; intros r; cbn; [discriminate|].
  destruct (String.eqb_spec k k') as [<-|Hne].
  - intros H. injection H as <-. cbn. destruct (String.eqb a k); reflexivity.
  - destruct (update l k v) as [r'|]; [|discriminate].
    intros H. injection H as <-. cbn. rewrite (IH r' eq_refl).
    destruct (String.eqb_spec a k') as [->|]; [|reflexivity].
    destruct (String.eqb_spec k' k) as [->|]; [now contradiction Hne|].
    reflexivity.
Qed.

Lemma assoc_insert_index {A : Type} (a k : string) (i : Z) (v : A)
  (l : list (string * A)) :
  existsb (String.eqb k) (List.map fst l) = false ->
  assoc a (insert_index l i k v)
  = if String.eqb a k then Some v else assoc a l.
Proof.
  induction l as [|[k' v'] l IH]; cbn; [reflexivity|].
  intros H. apply orb_false_elim in H as [Hk Hl].
  destruct (array_index k') as [j|]; [destruct (j <? i)|]; cbn;
    rewrite ?(IH Hl); try reflexivity.
  destruct (String.eqb_spec a k') as [->|]; [|reflexivity].
  rewrite String.eqb_sym, Hk. reflexivity.
Qed.

Lemma assoc_app {A : Type} (a : string) (l1 l2 : list (string * A)) :
  assoc a (l1 ++ l2)%list
  = match assoc a l1 with Some v => Some v | None => assoc a l2 end.
Proof.
  induction l1 as [|[k v] l1 IH]; cbn; [reflexivity|].
  destruct (String.eqb a k); [reflexivity | exact IH].
Qed.

Lemma has_name_existsb {A : Type} (props : list (string * A)) (k : string) :
  Lodash.has_name props k = existsb (String.eqb k) (List.map fst props).
Proof.
  unfold Lodash.has_name.
  induction props as [|[k' v] props IH]; cbn; [reflexivity|].
  destruct (String.eqb k k'); [reflexivity | exact IH].
Qed.

Lemma assoc_assign {A : Type} (a k : string) (v : A) (l : list (string * A)) :
  assoc a (assign l k v) = if String.eqb a k then Some v else assoc a l.
Proof.
  unfold assign. destruct (update l k v) as [r|] eqn:E.
  - now apply assoc_update.
  - apply update_not_found in E.
    destruct (array_index k) as [i|].
    + now apply assoc_insert_index.
    + rewrite assoc_app. cbn.
      destruct (String.eqb_spec a k) as [->|].
      * rewrite <- has_name_existsb in E. unfold Lodash.has_name in E.
        destruct (assoc k l); [discriminate E | reflexivity].
      * destruct (assoc a l); reflexivity.
Qed.

(** An assignment to an object gives an object. *)
Lemma set_object (acc : list (string * value)) (k : string) (v : value) :
  exists out, set (Obj acc) k v = Obj out.
Proof. unfold set. destruct (String.eqb k "__proto__"); eauto. Qed.

(** ** [parseClause] and [parseWhere]: edges, results and errors *)

Lemma parseClausePair_cases (L : Lodash.version)
  (parse : value -> completion value) (sch : Schema)
  (this obj val : value) (key : string) :
  parseClausePair L parse sch this obj val (KStr key) =
  if is_logical (fold_or key) then
    match val with
    | Arr clauses =>
        cs <- Lodash.map parse clauses ;;
        Normal (set obj (fold_or key) (Arr cs))
    | _ => Normal obj
    end
  else if String.eqb (toLowerCase key) "like" then
    likes <- Lodash.reduce (parseLikeClauses L sch) L val
               (Derived (Obj []) []) ;;
    Normal (Lodash.extend L obj likes)
  else
    e <- parseExpression L sch (KStr (field_key this key)) val ;;
    Normal (set obj (field_key this key) e).
Proof.
  unfold parseClausePair, fold_or, is_logical, field_key.
  destruct (String.eqb (toLowerCase key) "or"); reflexivity.
Qed.

(** X15. What is not an object has no clause pairs to parse, or pairs
    under Number keys: for [where], null and anything that is no
    collection give the empty document, as the empty array and the empty
    string do, and an array or a string that is not empty throws the
    TypeError of calling [toLowerCase] on a Number key. *)
Theorem where_not_an_object (L : Lodash.version) (sch : Schema)
  (original : value) :
  Lodash.isPlainObject original = false ->
  parseWhere L sch original =
  match original with
  | Arr (_ :: _) | Str (String _ _) =>
      Throw (TypeError "key.toLowerCase is not a function")
  | _ => Normal (Obj [])
  end.
Proof.
  intros H. destruct original as [| | | | s | items | | |];
    try reflexivity; try discriminate H.
  - destruct s; reflexivity.
  - destruct items; reflexivity.
Qed.

Lemma where_not_an_object_witness :
  Lodash.isPlainObject (Arr [Obj [("name", Str "a")]]) = false /\
  parseWhere lodash_4 [] (Arr [Obj [("name", Str "a")]]) =
  Throw (TypeError "key.toLowerCase is not a function") /\
  parseWhere lodash_4 [] Null = Normal (Obj []).
Proof.
  split; [reflexivity|]. split.
  - exact (where_not_an_object lodash_4 [] (Arr [Obj [("name", Str "a")]])
             eq_refl).
  - exact (where_not_an_object lodash_4 [] Null eq_refl).
Defined.

(** Under Number keys the clause parser returns the empty document when
    there is nothing to go through, and throws at the first key
    otherwise. *)
Lemma reduce_items_parseClausePair_outcome (L : Lodash.version)
  (parse : value -> completion value) (sch : Schema) (this : value)
  (items : list value) :
  Lodash.reduce_items (parseClausePair L parse sch this) items O (Obj []) =
  match items with
  | [] => Normal (Obj [])
  | _ :: _ => Throw (TypeError "key.toLowerCase is not a function")
  end.
Proof. destruct items; reflexivity. Qed.

Lemma reduce_items_parseModifier_outcome (L : Lodash.version)
  (parse : value -> completion value) (sch : Schema) (field : key)
  (items : list value) :
  Lodash.reduce_items (parseModifier L parse sch field) items O (Obj []) =
  match items with
  | [] => Normal (Obj [])
  | _ :: _ => Throw (TypeError "modifier.toLowerCase is not a function")
  end.
Proof. destruct items; reflexivity. Qed.

(** X28. An object that lodash reads as an array is not parsed by its
    properties, as a clause or as an expression: with no index to go
    through, the translation is the empty document, whatever the
    properties are; with one or more, the first index, a Number where a
    key or a modifier is expected, makes the parser throw. *)
Theorem array_like_objects (L : Lodash.version) (sch : Schema) (field : key)
  (props : list (string * value)) (n : Z) :
  Lodash.array_length L props = Some n ->
  parseClause L sch (Obj props) =
  (if n <=? 0 then Normal (Obj [])
   else Throw (TypeError "key.toLowerCase is not a function")) /\
  parseExpression L sch field (Obj props) =
  (if n <=? 0 then Normal (Obj [])
   else Throw (TypeError "modifier.toLowerCase is not a function")).
Proof.
  intros H. cbn [parseClause parseExpression]. rewrite H.
  rewrite reduce_items_parseClausePair_outcome,
    reduce_items_parseModifier_outcome.
  destruct (n <=? 0) eqn:En.
  - rewrite (elements_none props n En). split; reflexivity.
  - destruct (elements_some props n En) as [x [l ->]]. split; reflexivity.
Qed.

Lemma array_like_objects_witness :
  Lodash.array_length lodash_4 [("name", Str "a"); ("length", int 0)]
  = Some 0 /\
  parseClause lodash_4 [] (Obj [("name", Str "a"); ("length", int 0)])
  = Normal (Obj []) /\
  Lodash.array_length lodash_3 [("length", int 2); ("<", int 5)] = Some 2 /\
  parseExpression lodash_3 [] (KStr "size") (Obj [("length", int 2); ("<", int 5)])
  = Throw (TypeError "modifier.toLowerCase is not a function").
Proof.
  split; [reflexivity|]. split; [|split; [reflexivity|]].
  - exact (proj1 (array_like_objects lodash_4 [] (KStr "name")
                    [("name", Str "a"); ("length", int 0)] 0 eq_refl)).
  - exact (proj2 (array_like_objects lodash_3 [] (KStr "size")
                    [("length", int 2); ("<", int 5)] 2 eq_refl)).
Defined.

Lemma extend_object (L : Lodash.version) (acc : list (string * value))
  (source : derived) :
  exists out, Lodash.extend L (Obj acc) source = Obj out.
Proof.
  unfold Lodash.extend.
  generalize (if Lodash.extend_inherited L
              then (Lodash.own_props (own source)
                    ++ filter (fun e => negb (Lodash.has_name
                                                (Lodash.own_props (own source))
                                                (fst e)))
                         (inherited source))%list
              else Lodash.own_props (own source)) as copied.
  intros copied. revert acc.
  induction copied as [|[k v] copied IH]; intros acc; cbn [fold_left]; eauto.
  destruct (set_object acc k v) as [out ->]. apply IH.
Qed.

Lemma parseClausePair_object (L : Lodash.version)
  (parse : value -> completion value)
  (sch : Schema) (this val r : value) (k : key)
  (acc : list (string * value)) :
  parseClausePair L parse sch this (Obj acc) val k = Normal r ->
  exists out, r = Obj out.
Proof.
  destruct k as [key|i]; [|discriminate].
  rewrite parseClausePair_cases.
  destruct (is_logical (fold_or key)).
  - destruct val; try (intros H; injection H as <-; eauto).
    destruct (Lodash.map parse items); [|discriminate].
    intros H. injection H as <-. apply set_object.
  - destruct (String.eqb (toLowerCase key) "like").
    + destruct (Lodash.reduce (parseLikeClauses L sch) L val
                  (Derived (Obj []) [])); [|discriminate].
      intros H. injection H as <-. apply extend_object.
    + destruct (parseExpression L sch (KStr (field_key this key)) val);
        [|discriminate].
      intros H. injection H as <-. apply set_object.
Qed.

Lemma reduce_props_parseClausePair_object (L : Lodash.version)
  (parse : value -> completion value)
  (sch : Schema) (this r : value) (props acc : list (string * value)) :
  Lodash.reduce_props (parseClausePair L parse sch this) props (Obj acc)
  = Normal r ->
  exists out, r = Obj out.
Proof.
  revert acc. induction props as [|[k v] props IH]; intros acc.
  - cbn. intros H. injection H as <-. eauto.
  - cbn [Lodash.reduce_props].
    destruct (parseClausePair L parse sch this (Obj acc) v (KStr k)) as [a|]
      eqn:E; [|discriminate].
    apply parseClausePair_object in E as [out ->]. cbn [bind]. apply IH.
Qed.

(** X16. Whatever the clause, when [parseClause] returns it returns a
    plain object. *)
Theorem parseClause_object (L : Lodash.version) (sch : Schema)
  (original r : value) :
  parseClause L sch original = Normal r -> exists out, r = Obj out.
Proof.
  destruct original as [| | | | s | items | props | |];
    try (intros H; injection H as <-; eauto).
  - destruct s; [intros H; injection H as <-; eauto | discriminate].
  - destruct items; [intros H; injection H as <-; eauto | discriminate].
  - cbn [parseClause]. destruct (Lodash.array_length L props) as [n|].
    + rewrite reduce_items_parseClausePair_outcome.
      destruct (Lodash.elements props n); [|discriminate].
      intros H. injection H as <-. eauto.
    + apply reduce_props_parseClausePair_object.
Qed.

Lemma parseClause_object_witness :
  parseClause lodash_4 [] (Obj [("or", Arr [Obj [("a", int 1)]]);
                                ("like", Obj [("b", int 2)])])
  = Normal (Obj [("$or", Arr [Obj [("a", int 1)]]);
                 ("b", Obj [("like", int 2)])]) /\
  exists out,
    Obj [("$or", Arr [Obj [("a", int 1)]]); ("b", Obj [("like", int 2)])]
    = Obj out.
Proof.
  split; [reflexivity|].
  exact (parseClause_object lodash_4 []
           (Obj [("or", Arr [Obj [("a", int 1)]]);
                 ("like", Obj [("b", int 2)])])
           (Obj [("$or", Arr [Obj [("a", int 1)]]);
                 ("b", Obj [("like", int 2)])])
           eq_refl).
Defined.

Lemma map_throws {A B : Type} (f : A -> completion B) (l : list A)
  (err : error) :
  Lodash.map f l = Throw err -> exists x, In x l /\ f x = Throw err.
Proof.
  induction l as [|x l IH]; cbn; [discriminate|].
  destruct (f x) as [y|e] eqn:E.
  - cbn. destruct (Lodash.map f l); [discriminate|].
    intros H. injection H as <-.
    destruct (IH eq_refl) as [x' [Hin Hx]]. eauto.
  - cbn. intros H. injection H as <-. eauto.
Qed.

Lemma parseLikeClauses_throws (L : Lodash.version) (sch : Schema)
  (likes : derived) (expression : value) (field : key) (err : error) :
  parseLikeClauses L sch likes expression field = Throw err ->
  expression_error err.
Proof.
  unfold parseLikeClauses.
  destruct (parseExpression L sch field (Obj [("like", expression)])) eqn:E;
    [discriminate|].
  intros H. injection H as <-.
  now apply parseExpression_throws_only in E.
Qed.

Lemma reduce_parseLikeClauses_throws (L : Lodash.version) (sch : Schema)
  (val : value) (acc : derived) (err : error) :
  Lodash.reduce (parseLikeClauses L sch) L val acc = Throw err ->
  expression_error err.
Proof.
  assert (Hitems : forall items i a,
             Lodash.reduce_items (parseLikeClauses L sch) items i a
             = Throw err ->
             expression_error err).
  { induction items as [|v items IH]; intros i a; cbn; [discriminate|].
    destruct (parseLikeClauses L sch a v (KIdx i)) as [a'|e] eqn:E; cbn.
    - apply IH.
    - intros H. injection H as <-. now apply parseLikeClauses_throws in E. }
  destruct val; cbn [Lodash.reduce]; try discriminate; try apply Hitems.
  destruct (Lodash.array_length L props); [apply Hitems|].
  revert acc. induction props as [|[k v] props IH]; intros a; cbn;
    [discriminate|].
  destruct (parseLikeClauses L sch a v (KStr k)) as [a'|e] eqn:E; cbn.
  - apply IH.
  - intros H. injection H as <-. now apply parseLikeClauses_throws in E.
Qed.

Lemma parseClause_throws (L : Lodash.version) (sch : Schema) (v : value) :
  (forall err, parseClause L sch v = Throw err -> clause_error err)
  /\ (forall items, v = Arr items ->
        Forall (fun c => forall err, parseClause L sch c = Throw err ->
                                     clause_error err) items).
Proof.
  induction v as [| | b | x | s | items IH | props IH | source flags | d]
    using value_induction;
    try (split; [intros err H; discriminate H | intros ? H; discriminate H]).
  - split; [|intros ? H; discriminate H].
    destruct s; cbn; intros err H; [discriminate H|].
    injection H as <-. now right.
  - split.
    + destruct items; cbn; intros err H; [discriminate H|].
      injection H as <-. now right.
    + intros items' H. injection H as <-.
      eapply Forall_impl; [|exact IH]. intros c [Hc _]. exact Hc.
  - split; [|intros ? H; discriminate H].
    cbn [parseClause]. destruct (Lodash.array_length L props) as [n|].
    { rewrite reduce_items_parseClausePair_outcome.
      destruct (Lodash.elements props n); intros err H; [discriminate H|].
      injection H as <-. now right. }
    generalize (this_of L (Obj props)) as this.
    generalize (Obj []) as acc. intros acc this. revert acc.
    induction props as [|[k v] props IHprops]; intros acc err;
      [discriminate|].
    inversion IH as [|? ? [_ Hv] Hrest]; subst. cbn [snd] in Hv.
    cbn [Lodash.reduce_props].
    destruct (parseClausePair L (parseClause L sch) sch this acc v (KStr k))
      as [a|e] eqn:E; cbn [bind]; [now apply IHprops|].
    intros H. injection H as <-. clear IHprops.
    rewrite parseClausePair_cases in E.
    destruct (is_logical (fold_or k)).
    * destruct v; try discriminate E.
      destruct (Lodash.map (parseClause L sch) items) as [cs|e'] eqn:Em;
        [discriminate E|].
      injection E as <-.
      apply map_throws in Em as [c [Hin Hc]].
      specialize (Hv items eq_refl). rewrite Forall_forall in Hv.
      exact (Hv c Hin e' Hc).
    * destruct (String.eqb (toLowerCase k) "like").
      -- destruct (Lodash.reduce (parseLikeClauses L sch) L v
                     (Derived (Obj []) []))
           as [l|e'] eqn:El; [discriminate E|].
         injection E as <-. left.
         now apply reduce_parseLikeClauses_throws in El.
      -- destruct (parseExpression L sch (KStr (field_key this k)) v)
           as [r|e'] eqn:Ee; [discriminate E|].
         injection E as <-. left.
         now apply parseExpression_throws_only in Ee.
Qed.

(** X17. [parseClause] throws nothing but the three errors of the
    expression parser and the TypeError of a Number where a key is
    expected, however deep the clause that throws is nested under
    logical operators. *)
Theorem parseClause_throws_only (L : Lodash.version) (sch : Schema)
  (original : value) (err : error) :
  parseClause L sch original = Throw err -> clause_error err.
Proof. apply parseClause_throws. Qed.

Lemma parseClause_throws_only_witness :
  parseClause lodash_4 []
    (Obj [("$and", Arr [Obj [("or", Arr [Arr [Null]])]])])
  = Throw (TypeError "key.toLowerCase is not a function") /\
  clause_error (TypeError "key.toLowerCase is not a function").
Proof.
  split; [reflexivity|].
  exact (parseClause_throws_only lodash_4 []
           (Obj [("$and", Arr [Obj [("or", Arr [Arr [Null]])]])])
           (TypeError "key.toLowerCase is not a function") eq_refl).
Defined.

(** ** Clauses of fields *)

Lemma reduce_props_fields (L : Lodash.version)
  (parse : value -> completion value) (sch : Schema)
  (this : value) (props acc : list (string * value)) :
  forallb (fun e => is_field (fst e)) props = true ->
  enumerated (List.map fst acc
              ++ List.map (fun e => field_key this (fst e)) props)%list
  = true ->
  Lodash.reduce_props (parseClausePair L parse sch this) props (Obj acc) =
  (out <- parse_fields L sch this props ;; Normal (Obj (acc ++ out)%list)).
Proof.
  revert acc. induction props as [|[k v] props IH]; intros acc Hf Hd.
  - cbn. now rewrite app_nil_r.
  - cbn [forallb fst] in Hf. apply andb_prop in Hf as [Hk Hf].
    unfold is_field in Hk. apply andb_prop in Hk as [Hlog Hlike].
    apply negb_true_iff in Hlog. apply negb_true_iff in Hlike.
    cbn [Lodash.reduce_props parse_fields].
    rewrite parseClausePair_cases, Hlog, Hlike.
    destruct (parseExpression L sch (KStr (field_key this k)) v) as [e|];
      [|reflexivity].
    cbn [bind]. cbn [List.map fst] in Hd.
    rewrite (set_last _ _ _ _ Hd).
    rewrite IH.
    + destruct (parse_fields L sch this props); cbn [bind];
        [now rewrite <- app_assoc | reflexivity].
    + exact Hf.
    + rewrite map_app, <- app_assoc. exact Hd.
Qed.

(** X18. A clause that lodash does not read as an array and whose keys
    all stand for fields, in the order of their enumeration once [id]
    is renamed, is translated field by field, in order: each expression
    is parsed for the name its pair is stored under ([id] under [_id]
    unless [this] has an [_id]), the output has exactly these names, and
    the first expression that throws ends the parse. *)
Theorem field_clause (L : Lodash.version) (sch : Schema)
  (props : list (string * value)) :
  forallb (fun e => is_field (fst e)) props = true ->
  Lodash.array_length L props = None ->
  enumerated
    (List.map (fun e => field_key (this_of L (Obj props)) (fst e)) props)
  = true ->
  parseClause L sch (Obj props) =
  (out <- parse_fields L sch (this_of L (Obj props)) props ;;
   Normal (Obj out)).
Proof.
  intros Hf Hl Hd. rewrite parseClause_props by exact Hl.
  now apply (reduce_props_fields _ _ _ _ props []).
Qed.

Lemma field_clause_witness :
  forallb (fun e => is_field (fst e))
    [("id", Str "7"); ("age", Obj [(">", Str "18")]); ("tags", Arr [])]
  = true /\
  Lodash.array_length lodash_4
    [("id", Str "7"); ("age", Obj [(">", Str "18")]); ("tags", Arr [])]
  = None /\
  enumerated ["_id"; "age"; "tags"] = true /\
  parseClause lodash_4 age_integer
    (Obj [("id", Str "7"); ("age", Obj [(">", Str "18")]); ("tags", Arr [])])
  = Normal (Obj [("_id", Str "7"); ("age", Obj [("$gt", int 18)]);
                 ("tags", Obj [("$in", Arr [])])]).
Proof.
  split; [reflexivity|]. split; [reflexivity|]. split; [reflexivity|].
  exact (field_clause lodash_4 age_integer
           [("id", Str "7"); ("age", Obj [(">", Str "18")]); ("tags", Arr [])]
           eq_refl eq_refl eq_refl).
Defined.

(** ** Integers in decimal *)

Lemma read_digits_digit (c : ascii) (k : Z) (r : string) (acc : Z) :
  digit_value c = Some k -> (k <? 10) = true ->
  read_digits 10 (String c r) acc =
  (true, snd (fst (read_digits 10 r (acc * 10 + k))),
   snd (read_digits 10 r (acc * 10 + k))).
Proof.
  intros Hc Hk. cbn [read_digits]. rewrite Hc, Hk.
  destruct (read_digits 10 r (acc * 10 + k)) as [[b v] rest]. reflexivity.
Qed.

Lemma read_digits_string_of_uint (d : Decimal.uint) (acc : nat) :
  read_digits 10 (NilEmpty.string_of_uint d) (Z.of_nat acc) =
  (match d with Decimal.Nil => false | _ => true end,
   Z.of_nat (Nat.of_uint_acc d acc), EmptyString).
Proof.
  revert acc.
  induction d as [|d IH|d IH|d IH|d IH|d IH|d IH|d IH|d IH|d IH|d IH];
    intros acc; [reflexivity|..];
    cbn [NilEmpty.string_of_uint Nat.of_uint_acc];
    (erewrite read_digits_digit; [|vm_compute; reflexivity|reflexivity]);
    match goal with
    | |- context [read_digits 10 _ ?z] =>
        match goal with
        | |- context [Nat.of_uint_acc d ?a] =>
            replace z with (Z.of_nat a)
              by (rewrite Nat.tail_mul_spec; lia)
        end
    end;
    rewrite IH; reflexivity.
Qed.

Lemma to_uint_not_nil (n : nat) : Nat.to_uint n <> Decimal.Nil.
Proof.
  pose proof (DecimalNat.Unsigned.to_of (Nat.to_uint n)) as H.
  rewrite DecimalNat.Unsigned.of_to in H. rewrite H.
  unfold Decimal.unorm. destruct (Decimal.nzhead (Nat.to_uint n));
    discriminate.
Qed.

Lemma parseInt_string_of_uint (d : Decimal.uint) :
  d <> Decimal.Nil ->
  parseInt (NilEmpty.string_of_uint d) = num (Z.of_nat (Nat.of_uint d)).
Proof.
  intros Hd. set (s := NilEmpty.string_of_uint d).
  assert (Ht : trimStart s = s) by (subst s; destruct d; reflexivity).
  assert (Hs : drop_sign s = (false, s)) by (subst s; destruct d; reflexivity).
  assert (Hx : starts_with "0x" s || starts_with "0X" s = false).
  { subst s. destruct d as [|d'| | | | | | | | |]; try reflexivity.
    destruct d'; reflexivity. }
  assert (Hr : read_digits 10 s 0 = (true, Z.of_nat (Nat.of_uint d), "")).
  { subst s. change 0 with (Z.of_nat 0).
    rewrite read_digits_string_of_uint. destruct d; [now contradiction Hd|..];
      reflexivity. }
  unfold parseInt, parseInt_radix. rewrite Ht, Hs.
  change (0 =? 0) with true. change (0 =? 16) with false.
  cbn [negb andb orb]. rewrite Hx, Hr. reflexivity.
Qed.

(** X26. For a field declared [integer], the decimal text of a natural
    number [n] is coerced to [num n], the Number nearest to [n]. *)
Theorem integer_of_decimal (L : Lodash.version) (sch : Schema) (field : key)
  (m : value) (attr : attribute) (n : nat) :
  assoc (key_name field) sch = Some attr -> type attr = Some "integer" ->
  parseValue L sch field m (Str (string_of_nat n))
  = Normal (int (Z.of_nat n)).
Proof.
  intros Ha Ht. rewrite (parseValue_typed _ _ _ _ _ _ _ Ha Ht eq_refl).
  unfold translate, type_is. rewrite Ht. cbn [String.eqb Ascii.eqb Bool.eqb].
  unfold string_of_nat, int.
  rewrite parseInt_string_of_uint by apply to_uint_not_nil.
  now rewrite DecimalNat.Unsigned.of_to.
Qed.

Lemma integer_of_decimal_witness :
  assoc "age" age_integer = Some (Attribute (Some "integer")) /\
  parseValue lodash_4 age_integer (KStr "age") Undefined
    (Str (string_of_nat 2026))
  = Normal (int 2026).
Proof.
  split; [reflexivity|].
  exact (integer_of_decimal lodash_4 age_integer (KStr "age") Undefined _ 2026
           eq_refl eq_refl).
Defined.

(** ** Array indices *)

(** A decimal digit in front of a numeral is a numeral. *)
Lemma digit_numeral (c : ascii) (z : Z) (d : Decimal.uint) :
  digit_value c = Some z -> (z <? 10) = true ->
  exists d', String c (NilEmpty.string_of_uint d) = NilEmpty.string_of_uint d'.
Proof.
  intros Hc Hz.
  destruct c as [[] [] [] [] [] [] [] []]; vm_compute in Hc;
    try discriminate Hc; injection Hc as <-; try discriminate Hz.
  all: first [ now exists (Decimal.D0 d) | now exists (Decimal.D1 d)
             | now exists (Decimal.D2 d) | now exists (Decimal.D3 d)
             | now exists (Decimal.D4 d) | now exists (Decimal.D5 d)
             | now exists (Decimal.D6 d) | now exists (Decimal.D7 d)
             | now exists (Decimal.D8 d) | now exists (Decimal.D9 d) ].
Qed.

Lemma read_digits_numeral (s : string) (acc : Z) (b : bool) (v : Z) :
  read_digits 10 s acc = (b, v, EmptyString) ->
  exists d, s = NilEmpty.string_of_uint d.
Proof.
  revert acc b v. induction s as [|c r IH]; intros acc b v.
  - intros _. now exists Decimal.Nil.
  - cbn [read_digits].
    destruct (digit_value c) as [z|] eqn:Hc; [|discriminate].
    destruct (z <? 10) eqn:Hz; [|discriminate].
    destruct (read_digits 10 r (acc * 10 + z)) as [[b' v'] rest] eqn:E.
    intros H. injection H as _ _ ->.
    destruct (IH _ _ _ E) as [d ->].
    destruct (digit_numeral c z d Hc Hz) as [d' ->]. now exists d'.
Qed.

(** An array index is the decimal text of its number. *)
Lemma array_index_text (name : string) (i : Z) :
  array_index name = Some i -> name = string_of_nat (Z.to_nat i).
Proof.
  unfold array_index.
  destruct (read_digits 10 name 0) as [[b v] rest] eqn:E.
  destruct b; [|discriminate]. cbn [andb].
  destruct (String.eqb_spec rest "") as [->|]; [|discriminate]. cbn [andb].
  destruct (String.eqb name "0" || negb (starts_with "0" name)) eqn:Hc;
    [|discriminate].
  cbn [andb]. destruct (v <=? 4294967294); [|discriminate].
  intros H. injection H as <-.
  destruct (read_digits_numeral _ _ _ _ E) as [d ->].
  change 0 with (Z.of_nat 0) in E. rewrite read_digits_string_of_uint in E.
  injection E as Hd <-. rewrite Nat2Z.id. unfold string_of_nat.
  change (Nat.of_uint_acc d 0) with (Nat.of_uint d).
  rewrite DecimalNat.Unsigned.to_of.
  assert (Hu : Decimal.unorm d = d).
  { destruct d as [|d| | | | | | | | |]; try reflexivity; try discriminate Hd.
    destruct d; try reflexivity; discriminate Hc. }
  now rewrite Hu.
Qed.

Lemma array_index_injective (a b : string) (i : Z) :
  array_index a = Some i -> array_index b = Some i -> a = b.
Proof.
  intros Ha Hb. apply array_index_text in Ha, Hb. congruence.
Qed.

(** ** Assignments keep the order of enumeration *)

Lemma forallb_insert_index {A : Type} (P : string -> bool) (k : string)
  (i : Z) (v : A) (l : list (string * A)) :
  forallb P (List.map fst (insert_index l i k v))
  = P k && forallb P (List.map fst l).
Proof.
  induction l as [|[k' v'] l IH]; cbn; [reflexivity|].
  destruct (array_index k') as [j|]; [destruct (j <? i)|]; cbn;
    rewrite ?IH; try reflexivity.
  destruct (P k), (P k'); reflexivity.
Qed.

Lemma enumerated_insert_index {A : Type} (k : string) (i : Z) (v : A)
  (l : list (string * A)) :
  array_index k = Some i -> String.eqb k "__proto__" = false ->
  existsb (String.eqb k) (List.map fst l) = false ->
  enumerated (List.map fst l) = true ->
  enumerated (List.map fst (insert_index l i k v)) = true.
Proof.
  intros Hk Hp. induction l as [|[k' v'] l IH]; cbn [List.map fst].
  - intros _ _. cbn. now rewrite Hp.
  - intros Ha He. cbn [existsb] in Ha. apply orb_false_elim in Ha as [Hkk Ha].
    cbn [enumerated] in He. apply andb_prop in He as [He Hl].
    apply andb_prop in He as [Hp' Hb].
    assert (Hafter : forall x, (forall j, array_index k' = Some j -> i < j) ->
                before k' x = true -> before k x = true).
    { intros x Hj Hx. unfold before in *. rewrite Hk.
      destruct (array_index k') as [j|].
      - destruct (array_index x) as [j'|]; [|reflexivity].
        specialize (Hj j eq_refl). apply Z.ltb_lt in Hx. apply Z.ltb_lt. lia.
      - destruct (array_index x); [discriminate Hx | reflexivity]. }
    cbn [insert_index].
    destruct (array_index k') as [j|] eqn:Hk'.
    + destruct (j <? i) eqn:Hji.
      * cbn [List.map fst enumerated].
        rewrite Hp', forallb_insert_index, Hb, (IH Ha Hl), andb_true_r.
        unfold before. now rewrite Hk', Hk, Hji.
      * cbn [List.map fst enumerated forallb].
        rewrite Hp, Hp', Hb, Hl. cbn [negb andb].
        assert (Hij : i < j).
        { apply Z.ltb_ge in Hji.
          destruct (Z.eq_dec i j) as [->|]; [|lia].
          rewrite (array_index_injective k k' j Hk Hk'), String.eqb_refl in Hkk.
          discriminate Hkk. }
        assert (Hkk' : before k k' = true).
        { unfold before. rewrite Hk, Hk'. now apply Z.ltb_lt. }
        rewrite Hkk'. cbn [andb]. rewrite andb_true_r.
        apply forallb_forall. intros x Hx. rewrite forallb_forall in Hb.
        apply Hafter; [|now apply Hb].
        intros j' Hj'. injection Hj' as <-. exact Hij.
    + cbn [List.map fst enumerated forallb].
      rewrite Hp, Hp', Hb, Hl. cbn [negb andb].
      assert (Hkk' : before k k' = true)
        by (unfold before; now rewrite Hk, Hk').
      rewrite Hkk'. cbn [andb]. rewrite andb_true_r.
      apply forallb_forall. intros x Hx. rewrite forallb_forall in Hb.
      apply Hafter; [|now apply Hb]. intros j' Hj'. discriminate Hj'.
Qed.

Lemma enumerated_last (l : list string) (k : string) :
  array_index k = None -> String.eqb k "__proto__" = false ->
  existsb (String.eqb k) l = false ->
  enumerated l = true -> enumerated (l ++ [k])%list = true.
Proof.
  intros Hk Hp. induction l as [|a l IH]; cbn [app enumerated existsb].
  - intros _ _. cbn. now rewrite Hp.
  - intros Ha He. apply orb_false_elim in Ha as [Hka Ha].
    apply andb_prop in He as [He Hl]. apply andb_prop in He as [Hp' Hb].
    rewrite Hp', forallb_app, Hb, (IH Ha Hl). cbn [forallb andb].
    rewrite !andb_true_r. unfold before. rewrite Hk.
    destruct (array_index a); [reflexivity|].
    now rewrite String.eqb_sym, Hka.
Qed.

Lemma enumerated_assign {A : Type} (k : string) (v : A)
  (l : list (string * A)) :
  String.eqb k "__proto__" = false ->
  enumerated (List.map fst l) = true ->
  enumerated (List.map fst (assign l k v)) = true.
Proof.
  intros Hp He. unfold assign. destruct (update l k v) as [r|] eqn:E.
  - apply update_found in E as [-> _]. exact He.
  - apply update_not_found in E.
    destruct (array_index k) as [i|] eqn:Hk.
    + now apply enumerated_insert_index.
    + rewrite map_app. now apply enumerated_last.
Qed.

(** An assignment to an object whose properties are some [P], by a name
    and a value that are [P], gives such an object; the order of
    enumeration is kept. *)
Lemma set_keeps (P : string * value -> Prop) (acc : list (string * value))
  (k : string) (v : value) :
  Forall P acc -> enumerated (List.map fst acc) = true -> P (k, v) ->
  exists out, set (Obj acc) k v = Obj out
              /\ Forall P out /\ enumerated (List.map fst out) = true.
Proof.
  intros Ha He Hv. unfold set.
  destruct (String.eqb k "__proto__") eqn:Hp; [now exists acc|].
  exists (assign acc k v). split; [reflexivity|]. split.
  - now apply Forall_assign.
  - now apply enumerated_assign.
Qed.

(** ** Translating a translated expression *)

Lemma reduce_props_parseModifier_object (L : Lodash.version) (sch : Schema)
  (field : key) (props acc : list (string * value)) (r : value) :
  Lodash.reduce_props (parseModifier L (parseExpression L sch field) sch field)
    props (Obj acc) = Normal r ->
  exists out, r = Obj out.
Proof.
  revert acc. induction props as [|[m v] props IH]; intros acc.
  - cbn. intros H. injection H as <-. eauto.
  - cbn [Lodash.reduce_props]. rewrite parseModifier_cases.
    destruct (negation_key m).
    + destruct (Lodash.isPlainObject v && negb (Lodash.has v "_bsontype")).
      * destruct (parseExpression L sch field v) as [e|]; [|discriminate].
        cbn [bind]. destruct (set_object acc "$not" e) as [out ->]. apply IH.
      * destruct (coerce L sch field v) as [c|]; [|discriminate].
        cbn [bind].
        destruct (set_object acc (if Lodash.isArray v then "$nin" else "$ne") c)
          as [out ->].
        apply IH.
    + destruct (Lodash.isString v && is_string_modifier m); [discriminate|].
      destruct (coerce L sch field v) as [c|]; [|discriminate].
      cbn [bind]. destruct (set_object acc (operator_key m) c) as [out ->].
      apply IH.
Qed.

(** The translation of an object is an object. *)
Lemma parseExpression_object (L : Lodash.version) (sch : Schema) (field : key)
  (props : list (string * value)) (r : value) :
  parseExpression L sch field (Obj props) = Normal r -> exists out, r = Obj out.
Proof.
  cbn [parseExpression]. destruct (Lodash.array_length L props) as [n|].
  - rewrite reduce_items_parseModifier_outcome.
    destruct (Lodash.elements props n); [|discriminate].
    intros H. injection H as <-. eauto.
  - apply reduce_props_parseModifier_object.
Qed.

Lemma settled_not (L : Lodash.version) (sch : Schema) (field : key)
  (o : list (string * value)) :
  settled L sch field ("$not", Obj o).
Proof. repeat split. Qed.

Lemma settled_negated (L : Lodash.version) (sch : Schema) (field : key)
  (v c : value) :
  coerce L sch field v = Normal c ->
  settled L sch field (if Lodash.isArray v then "$nin" else "$ne", c).
Proof.
  intros Hc. unfold settled. cbn [fst snd].
  destruct (Lodash.isArray v); repeat split;
    try apply andb_false_r;
    exact (parseValue_twice L sch field Undefined Undefined v c Hc).
Qed.

Lemma operator_key_cases (m : string) :
  operator_key m = "$lt" \/ operator_key m = "$lte" \/ operator_key m = "$gt"
  \/ operator_key m = "$gte" \/ operator_key m = m.
Proof.
  unfold operator_key.
  repeat match goal with
         | |- context [if ?b then _ else _] => destruct b; [tauto|]
         end.
  tauto.
Qed.

Lemma operator_key_settled (m : string) :
  negation_key m = false ->
  negation_key (operator_key m) = false
  /\ operator_key (operator_key m) = operator_key m
  /\ (is_string_modifier (operator_key m) = true -> operator_key m = m).
Proof.
  intros Hn.
  destruct (operator_key_cases m) as [H | [H | [H | [H | H]]]]; rewrite !H;
    try (repeat split; try reflexivity; intros E; discriminate E).
  repeat split; auto.
Qed.

Lemma settled_operator (L : Lodash.version) (sch : Schema) (field : key)
  (m : string) (v c : value) :
  negation_key m = false ->
  Lodash.isString v && is_string_modifier m = false ->
  coerce L sch field v = Normal c ->
  settled L sch field (operator_key m, c).
Proof.
  intros Hn Hs Hc. destruct (operator_key_settled m Hn) as [H1 [H2 H3]].
  unfold settled. cbn [fst snd]. repeat split; auto.
  - destruct (is_string_modifier (operator_key m)) eqn:E;
      [|apply andb_false_r].
    rewrite (H3 eq_refl) in E. rewrite E, andb_true_r in Hs.
    unfold coerce in Hc. rewrite (parseValue_not_string _ _ _ _ _ Hs) in Hc.
    injection Hc as <-. now rewrite Hs.
  - exact (parseValue_twice L sch field Undefined Undefined v c Hc).
Qed.

(** An object that is parsed by its properties is translated to an
    object of settled pairs in the order of their enumeration. *)
Lemma reduce_props_parseModifier_settled (L : Lodash.version) (sch : Schema)
  (field : key) (props acc : list (string * value)) (r : value) :
  Forall (settled L sch field) acc ->
  enumerated (List.map fst acc) = true ->
  Lodash.reduce_props (parseModifier L (parseExpression L sch field) sch field)
    props (Obj acc) = Normal r ->
  exists out, r = Obj out /\ Forall (settled L sch field) out
              /\ enumerated (List.map fst out) = true.
Proof.
  revert acc. induction props as [|[m v] props IH]; intros acc Hs Hd.
  - cbn. intros H. injection H as <-. eauto.
  - cbn [Lodash.reduce_props]. rewrite parseModifier_cases.
    destruct (negation_key m) eqn:En.
    + destruct (Lodash.isPlainObject v && negb (Lodash.has v "_bsontype"))
        eqn:Ep.
      * destruct v as [| | | | | | o | |]; try discriminate Ep.
        destruct (parseExpression L sch field (Obj o)) as [e|] eqn:E;
          [|discriminate].
        apply parseExpression_object in E as [out ->]. cbn [bind].
        destruct (set_keeps _ acc "$not" (Obj out) Hs Hd
                    (settled_not L sch field out)) as [acc' [-> [Hs' Hd']]].
        now apply IH.
      * destruct (coerce L sch field v) as [c|] eqn:Ec; [|discriminate].
        cbn [bind].
        destruct (set_keeps _ acc _ c Hs Hd
                    (settled_negated L sch field v c Ec))
          as [acc' [-> [Hs' Hd']]].
        now apply IH.
    + destruct (Lodash.isString v && is_string_modifier m) eqn:Es;
        [discriminate|].
      destruct (coerce L sch field v) as [c|] eqn:Ec; [|discriminate].
      cbn [bind].
      destruct (set_keeps _ acc _ c Hs Hd
                  (settled_operator L sch field m v c En Es Ec))
        as [acc' [-> [Hs' Hd']]].
      now apply IH.
Qed.

Lemma parseModifier_settled (L : Lodash.version)
  (parse : value -> completion value) (sch : Schema)
  (field : key) (acc : list (string * value)) (k : string) (v : value) :
  settled L sch field (k, v) ->
  parseModifier L parse sch field (Obj acc) v (KStr k)
  = Normal (set (Obj acc) k v).
Proof.
  intros [Hn [Ho [Hs Hc]]]. cbn [fst snd] in *.
  rewrite parseModifier_cases, Hn, Hs, Ho, Hc. reflexivity.
Qed.

Lemma parseValue_scalar (L : Lodash.version) (sch : Schema) (field : key)
  (m : value) (s : string) (w : value) :
  parseValue L sch field m (Str s) = Normal w ->
  Lodash.isPlainObject w = false /\ Lodash.isArray w = false.
Proof.
  rewrite parseValue_string.
  destruct (assoc (key_name field) sch) as [attr|].
  - destruct (type_is attr "string");
      [intros H; injection H as <-; split; reflexivity|].
    destruct (translate attr s) as [v|] eqn:Ev; intros H; injection H as <-;
      [|split; reflexivity].
    revert Ev. unfold translate.
    repeat match goal with
           | |- (if ?b then _ else _) = _ -> _ => destruct b
           end; intros H; try discriminate H; injection H as <-; split;
      reflexivity.
  - destruct (Lodash.has_field L sch field); [discriminate|].
    intros H. injection H as <-. split; reflexivity.
Qed.

Lemma array_like_false (L : Lodash.version) (out : list (string * value)) :
  array_like L (Obj out) = false -> Lodash.array_length L out = None.
Proof.
  cbn [array_like]. destruct (Lodash.array_length L out); [discriminate|].
  reflexivity.
Qed.

(** X14. Translating an expression is idempotent on every document that
    lodash does not read as an array: when [parseExpression] returns
    such a document, parsing the document for the same field returns it
    unchanged. *)
Theorem parseExpression_idempotent (L : Lodash.version) (sch : Schema)
  (field : key) (e r : value) :
  parseExpression L sch field e = Normal r ->
  array_like L r = false ->
  parseExpression L sch field r = Normal r.
Proof.
  destruct e as [| | b | x | s | items | props | source flags | d];
    try (intros H _; injection H as <-; reflexivity).
  - cbn [parseExpression]. intros H _.
    destruct (parseValue_scalar _ _ _ _ _ _ H) as [Hp Ha].
    rewrite parseExpression_eq, Hp, Ha. cbn [andb].
    exact (parseValue_twice L sch field Undefined Undefined _ _ H).
  - cbn [parseExpression]. destruct (Lodash.array_length L props) as [n|].
    + rewrite reduce_items_parseModifier_outcome.
      destruct (Lodash.elements props n); [|discriminate].
      intros H _. injection H as <-. reflexivity.
    + intros H Hr.
      apply reduce_props_parseModifier_settled in H
        as [out [-> [Hs Hd]]]; [|constructor | reflexivity].
      rewrite parseExpression_props by now apply array_like_false.
      rewrite (reduce_props_maps _ (fun e => e) out []).
      * now rewrite map_id.
      * intros acc' k v Hin. apply parseModifier_settled.
        rewrite Forall_forall in Hs. exact (Hs _ Hin).
      * exact Hd.
Qed.

Lemma parseExpression_idempotent_witness :
  parseExpression lodash_4 age_integer (KStr "age")
    (Obj [("10", Str "7"); ("not", Obj [("<", Str "5")]); ("GTE", Str "1");
          ("!", Arr []); ("contains", int 1)])
  = Normal (Obj [("10", int 7); ("$not", Obj [("$lt", int 5)]);
                 ("$gte", int 1); ("$nin", Arr []); ("contains", int 1)]) /\
  array_like lodash_4
    (Obj [("10", int 7); ("$not", Obj [("$lt", int 5)]); ("$gte", int 1);
          ("$nin", Arr []); ("contains", int 1)]) = false /\
  parseExpression lodash_4 age_integer (KStr "age")
    (Obj [("10", int 7); ("$not", Obj [("$lt", int 5)]); ("$gte", int 1);
          ("$nin", Arr []); ("contains", int 1)])
  = Normal (Obj [("10", int 7); ("$not", Obj [("$lt", int 5)]);
                 ("$gte", int 1); ("$nin", Arr []); ("contains", int 1)]).
Proof.
  split; [reflexivity|]. split; [reflexivity|].
  exact (parseExpression_idempotent lodash_4 age_integer (KStr "age")
           (Obj [("10", Str "7"); ("not", Obj [("<", Str "5")]);
                 ("GTE", Str "1"); ("!", Arr []); ("contains", int 1)])
           (Obj [("10", int 7); ("$not", Obj [("$lt", int 5)]);
                 ("$gte", int 1); ("$nin", Arr []); ("contains", int 1)])
           eq_refl eq_refl).
Defined.

(** ** [parseSort]: what it returns for every input *)

Lemma string_of_nat_not_id (i : nat) :
  String.eqb "id" (string_of_nat i) = false.
Proof. unfold string_of_nat. destruct (Nat.to_uint i); reflexivity. Qed.

Lemma sort_name_not_id (field : string) :
  String.eqb "id" (sort_name field) = false.
Proof.
  unfold sort_name. destruct (String.eqb_spec field "id") as [->|H];
    [reflexivity|].
  apply String.eqb_neq. congruence.
Qed.

Lemma parseSortPair_assigns (acc : list (string * value)) (order : value)
  (field : key) :
  exists k o, parseSortPair (Obj acc) order field
              = Normal (set (Obj acc) k o)
              /\ is_order o /\ String.eqb "id" k = false.
Proof.
  destruct field as [f|i].
  - rewrite parseSortPair_entry. exists (sort_name f).
    destruct (descending order); eexists; (split; [reflexivity|]);
      (split; [|apply sort_name_not_id]); [now right | now left].
  - unfold parseSortPair. cbn [key_is key_name].
    exists (string_of_nat i).
    destruct (-1 <? indexOf [Num (num 0); Num (num (-1))] order);
      eexists; (split; [reflexivity|]);
      (split; [|apply string_of_nat_not_id]); [now right | now left].
Qed.

Lemma sort_output_set (acc : list (string * value)) (k : string)
  (o : value) :
  sort_output acc -> is_order o -> String.eqb "id" k = false ->
  exists out, set (Obj acc) k o = Obj out /\ sort_output out.
Proof.
  intros [Ho [Hd Hid]] Hoo Hk. unfold set.
  destruct (String.eqb k "__proto__") eqn:Hp.
  - exists acc. repeat split; assumption.
  - exists (assign acc k o). repeat split.
    + now apply Forall_assign.
    + now apply enumerated_assign.
    + now rewrite existsb_assign, Hid, Hk.
Qed.

Lemma reduce_props_parseSortPair_output (props acc : list (string * value)) :
  sort_output acc ->
  exists out, Lodash.reduce_props parseSortPair props (Obj acc)
              = Normal (Obj out) /\ sort_output out.
Proof.
  revert acc. induction props as [|[f order] props IH]; intros acc Hacc.
  - cbn. eauto.
  - cbn [Lodash.reduce_props].
    destruct (parseSortPair_assigns acc order (KStr f)) as [k [o [E [Ho Hk]]]].
    rewrite E. cbn [bind].
    destruct (sort_output_set acc k o Hacc Ho Hk) as [acc' [-> Hacc']].
    now apply IH.
Qed.

Lemma reduce_items_parseSortPair_output (items : list value) (i : nat)
  (acc : list (string * value)) :
  sort_output acc ->
  exists out, Lodash.reduce_items parseSortPair items i (Obj acc)
              = Normal (Obj out) /\ sort_output out.
Proof.
  revert i acc. induction items as [|order items IH]; intros i acc Hacc.
  - cbn. eauto.
  - cbn [Lodash.reduce_items].
    destruct (parseSortPair_assigns acc order (KIdx i)) as [k [o [E [Ho Hk]]]].
    rewrite E. cbn [bind].
    destruct (sort_output_set acc k o Hacc Ho Hk) as [acc' [-> Hacc']].
    now apply IH.
Qed.

Lemma parseSort_output (L : Lodash.version) (original : value) :
  exists out, parseSort L original = Normal (Obj out) /\ sort_output out.
Proof.
  assert (H0 : sort_output []) by (repeat split; constructor).
  unfold parseSort.
  destruct original; cbn [Lodash.reduce]; eauto;
    try (now apply reduce_items_parseSortPair_output).
  destruct (Lodash.array_length L props).
  - now apply reduce_items_parseSortPair_output.
  - now apply reduce_props_parseSortPair_output.
Qed.

(** X19. [parseSort] never throws: for every input, an object or not, it
    returns a plain object in which every order is the Number 1 or the
    Number -1. *)
Theorem parseSort_orders (L : Lodash.version) (original : value) :
  exists out,
    parseSort L original = Normal (Obj out)
    /\ Forall (fun e => snd e = int 1 \/ snd e = int (-1)) out.
Proof.
  destruct (parseSort_output L original) as [out [E [Ho _]]]. eauto.
Qed.

(** X20. No output of [parseSort] has a field named [id]: the name is
    always stored as [_id]. *)
Theorem parseSort_no_id (L : Lodash.version) (original : value)
  (out : list (string * value)) :
  parseSort L original = Normal (Obj out) -> Lodash.has (Obj out) "id" = false.
Proof.
  intros H. destruct (parseSort_output L original) as [out' [E [_ [_ Hid]]]].
  rewrite E in H. injection H as <-.
  cbn [Lodash.has]. now rewrite has_name_existsb.
Qed.

Lemma parseSort_no_id_witness :
  parseSort lodash_4 (Obj [("id", Str "desc"); ("_id", int 0)])
  = Normal (Obj [("_id", int (-1))]) /\
  Lodash.has (Obj [("_id", int (-1))]) "id" = false.
Proof.
  split; [reflexivity|].
  exact (parseSort_no_id lodash_4 (Obj [("id", Str "desc"); ("_id", int 0)])
           [("_id", int (-1))] eq_refl).
Defined.

Lemma existsb_false_In (k : string) (l : list string) (a : string) :
  existsb (String.eqb k) l = false -> In a l -> String.eqb a k = false.
Proof.
  intros H Hin. rewrite String.eqb_sym.
  destruct (String.eqb k a) eqn:E; [|reflexivity].
  assert (Ht : existsb (String.eqb k) l = true)
    by (apply existsb_exists; eauto).
  rewrite Ht in H. discriminate H.
Qed.

(** An entry of an output of [parseSort] is normalized already. *)
Lemma sort_entry_output (out : list (string * value)) (e : string * value) :
  sort_output out -> In e out -> sort_entry e = e.
Proof.
  intros [Ho [_ Hid]] Hin. destruct e as [k v]. unfold sort_entry.
  cbn [fst snd].
  assert (Hk : sort_name k = k).
  { unfold sort_name.
    rewrite (existsb_false_In "id" (List.map fst out) k Hid);
      [reflexivity|].
    change k with (fst (k, v)). now apply in_map. }
  rewrite Forall_forall in Ho. destruct (Ho _ Hin) as [Hv | Hv];
    cbn [snd] in Hv; subst v; rewrite Hk; reflexivity.
Qed.

(** X21. Normalizing a sort is idempotent on every output that lodash
    does not read as an array: when [parseSort] returns such an output,
    it returns it unchanged when given it. *)
Theorem parseSort_idempotent (L : Lodash.version) (original r : value) :
  parseSort L original = Normal r ->
  array_like L r = false ->
  parseSort L r = Normal r.
Proof.
  intros H Hr. destruct (parseSort_output L original) as [out [E Hout]].
  rewrite E in H. injection H as <-.
  assert (Hm : List.map sort_entry out = out).
  { rewrite <- (map_id out) at 2. apply map_ext_in.
    intros e He. now apply (sort_entry_output out). }
  unfold parseSort. cbn [Lodash.reduce].
  rewrite (array_like_false _ _ Hr).
  rewrite (reduce_props_parseSortPair out []); [now rewrite Hm|].
  cbn [List.map app].
  replace (List.map (fun e => sort_name (fst e)) out) with (List.map fst out)
    by (rewrite <- Hm at 1; now rewrite map_map).
  apply Hout.
Qed.

Lemma parseSort_idempotent_witness :
  parseSort lodash_4 (Obj [("7", int 1); ("id", int 0); ("name", Str "DESC")])
  = Normal (Obj [("7", int 1); ("_id", int (-1)); ("name", int 1)]) /\
  array_like lodash_4
    (Obj [("7", int 1); ("_id", int (-1)); ("name", int 1)]) = false /\
  parseSort lodash_4 (Obj [("7", int 1); ("_id", int (-1)); ("name", int 1)])
  = Normal (Obj [("7", int 1); ("_id", int (-1)); ("name", int 1)]).
Proof.
  split; [reflexivity|]. split; [reflexivity|].
  exact (parseSort_idempotent lodash_4
           (Obj [("7", int 1); ("id", int 0); ("name", Str "DESC")])
           (Obj [("7", int 1); ("_id", int (-1)); ("name", int 1)])
           eq_refl eq_refl).
Defined.

Lemma reduce_props_parseSortPair_last (props acc : list (string * value)) :
  exists out,
    Lodash.reduce_props parseSortPair props (Obj acc) = Normal (Obj out)
    /\ forall a,
         assoc a out
         = if String.eqb a "__proto__" then assoc a acc
           else match assoc a (rev (List.map sort_entry props)) with
                | Some v => Some v
                | None => assoc a acc
                end.
Proof.
  revert acc. induction props as [|[f order] props IH]; intros acc.
  - exists acc. split; [reflexivity|]. intros a.
    destruct (String.eqb a "__proto__"); reflexivity.
  - cbn [Lodash.reduce_props]. rewrite parseSortPair_entry. cbn [bind].
    unfold set at 1. destruct (String.eqb (sort_name f) "__proto__") eqn:Hp.
    + destruct (IH acc) as [out [E Hout]].
      exists out. split; [exact E|]. intros a. rewrite Hout.
      destruct (String.eqb_spec a "__proto__") as [->|Ha]; [reflexivity|].
      cbn [List.map rev]. rewrite assoc_app.
      destruct (assoc a (rev (List.map sort_entry props))); [reflexivity|].
      unfold sort_entry. cbn [assoc fst snd].
      apply String.eqb_eq in Hp. rewrite Hp.
      apply String.eqb_neq in Ha. now rewrite Ha.
    + destruct (IH (assign acc (sort_name f)
                      (int (if descending order then -1 else 1))))
        as [out [E Hout]].
      exists out. split; [exact E|]. intros a.
      rewrite Hout, assoc_assign.
      destruct (String.eqb_spec a "__proto__") as [->|Ha].
      * rewrite String.eqb_sym, Hp. reflexivity.
      * cbn [List.map rev]. rewrite assoc_app.
        destruct (assoc a (rev (List.map sort_entry props))); [reflexivity|].
        unfold sort_entry. cbn [assoc fst snd].
        destruct (String.eqb a (sort_name f)); reflexivity.
Qed.

(** X22. Last write wins in a sort that lodash does not read as an
    array: when several entries are stored under one name, as [id] and
    [_id] are, the output has the normalized order of the last of them;
    a name that no entry is stored under is absent, and so is
    [__proto__], which names no property. *)
Theorem parseSort_last_wins (L : Lodash.version)
  (props : list (string * value)) :
  Lodash.array_length L props = None ->
  exists out,
    parseSort L (Obj props) = Normal (Obj out)
    /\ forall name,
         assoc name out
         = if String.eqb name "__proto__" then None
           else assoc name (rev (List.map sort_entry props)).
Proof.
  intros Hl. destruct (reduce_props_parseSortPair_last props [])
    as [out [E H]].
  exists out. split.
  - unfold parseSort. cbn [Lodash.reduce]. now rewrite Hl.
  - intros a. rewrite H. destruct (String.eqb a "__proto__"); [reflexivity|].
    destruct (assoc a (rev (List.map sort_entry props))); reflexivity.
Qed.

Lemma parseSort_last_wins_witness :
  Lodash.array_length lodash_4
    [("id", int 1); ("__proto__", int 1); ("_id", int 0)] = None /\
  exists out,
    parseSort lodash_4
      (Obj [("id", int 1); ("__proto__", int 1); ("_id", int 0)])
    = Normal (Obj out)
    /\ forall name,
         assoc name out
         = if String.eqb name "__proto__" then None
           else assoc name
                  (rev (List.map sort_entry
                          [("id", int 1); ("__proto__", int 1);
                           ("_id", int 0)])).
Proof.
  split; [reflexivity|].
  exact (parseSort_last_wins lodash_4
           [("id", int 1); ("__proto__", int 1); ("_id", int 0)] eq_refl).
Defined.

(** ** [normalizeCriteria] *)

Lemma parseSort_returns (L : Lodash.version) (original : value) :
  exists r, parseSort L original = Normal r.
Proof. destruct (parseSort_output L original) as [out [E _]]. eauto. Qed.

(** X23. Criteria without a [where] and without a [sort] are returned as
    they are, whatever their values. *)
Theorem criteria_passthrough (L : Lodash.version) (sch : Schema)
  (props : list (string * value)) :
  forallb (fun e => other_key (fst e)) props = true ->
  normalizeCriteria L sch (Obj props) = Normal (Obj props).
Proof.
  intros H. unfold normalizeCriteria, Lodash.mapValues.
  cbn [Lodash.own_props].
  enough (E : Lodash.map_props
                (fun original key =>
                   if String.eqb key "where" then parseWhere L sch original
                   else if String.eqb key "sort" then parseSort L original
                   else Normal original) props = Normal props)
    by now rewrite E.
  induction props as [|[k v] props IH]; [reflexivity|].
  cbn [forallb fst] in H. apply andb_prop in H as [Hk H].
  unfold other_key in Hk. apply andb_prop in Hk as [Hw Hs].
  apply negb_true_iff in Hw. apply negb_true_iff in Hs.
  cbn [Lodash.map_props]. rewrite Hw, Hs. cbn [bind].
  now rewrite (IH H).
Qed.

Lemma criteria_passthrough_witness :
  forallb (fun e => other_key (fst e))
    [("limit", int 10); ("skip", Str "20"); ("Where", Obj [("a", Str "b")])]
  = true /\
  normalizeCriteria lodash_4 age_integer
    (Obj [("limit", int 10); ("skip", Str "20");
          ("Where", Obj [("a", Str "b")])])
  = Normal (Obj [("limit", int 10); ("skip", Str "20");
                 ("Where", Obj [("a", Str "b")])]).
Proof.
  split; [reflexivity|].
  exact (criteria_passthrough lodash_4 age_integer
           [("limit", int 10); ("skip", Str "20");
            ("Where", Obj [("a", Str "b")])] eq_refl).
Defined.

(** X24. Only [where] can make the normalization of criteria fail:
    [normalizeCriteria] returns exactly when [parseWhere] returns on the
    value of every [where] key; [sort] and the other keys never throw. *)
Theorem criteria_returns (L : Lodash.version) (sch : Schema)
  (props : list (string * value)) :
  returns (normalizeCriteria L sch (Obj props)) =
  forallb (fun e => negb (String.eqb (fst e) "where")
                    || returns (parseWhere L sch (snd e))) props.
Proof.
  unfold normalizeCriteria, Lodash.mapValues. cbn [Lodash.own_props].
  set (f := fun original key =>
              if String.eqb key "where" then parseWhere L sch original
              else if String.eqb key "sort" then parseSort L original
              else Normal original).
  enough (E : returns (Lodash.map_props f props) =
              forallb (fun e => negb (String.eqb (fst e) "where")
                                || returns (parseWhere L sch (snd e))) props).
  { rewrite <- E. destruct (Lodash.map_props f props); reflexivity. }
  induction props as [|[k v] props IH]; [reflexivity|].
  cbn [Lodash.map_props forallb fst snd]. rewrite <- IH. unfold f at 1.
  destruct (String.eqb k "where"); cbn [negb orb].
  - destruct (parseWhere L sch v); [|reflexivity]. cbn [bind returns andb].
    destruct (Lodash.map_props f props); reflexivity.
  - destruct (String.eqb k "sort").
    + destruct (parseSort_returns L v) as [r ->]. cbn [bind andb].
      destruct (Lodash.map_props f props); reflexivity.
    + cbn [bind andb]. destruct (Lodash.map_props f props); reflexivity.
Qed.

(** X25. When [normalizeCriteria] returns, it returns an object with the
    names of the criteria in their order, in which every pair that is
    neither [where] nor [sort] is the pair of the criteria. *)
Theorem criteria_names (L : Lodash.version) (sch : Schema)
  (props : list (string * value)) (r : value) :
  normalizeCriteria L sch (Obj props) = Normal r ->
  exists out,
    r = Obj out /\ List.map fst out = List.map fst props
    /\ forall k v, In (k, v) props -> other_key k = true -> In (k, v) out.
Proof.
  unfold normalizeCriteria, Lodash.mapValues. cbn [Lodash.own_props].
  set (f := fun original key =>
              if String.eqb key "where" then parseWhere L sch original
              else if String.eqb key "sort" then parseSort L original
              else Normal original).
  destruct (Lodash.map_props f props) as [out|] eqn:E; [|discriminate].
  cbn [bind]. intros H. injection H as <-. exists out.
  split; [reflexivity|]. revert out E.
  induction props as [|[k v] props IH]; intros out E.
  - injection E as <-. split; [reflexivity | intros ? ? []].
  - cbn [Lodash.map_props] in E.
    destruct (f v k) as [v'|] eqn:Ev; [|discriminate E]. cbn [bind] in E.
    destruct (Lodash.map_props f props) as [rest|]; [|discriminate E].
    injection E as <-. destruct (IH rest eq_refl) as [Hn Hp].
    split; [cbn; now rewrite Hn|].
    intros k' w [Hin | Hin] Hk.
    + injection Hin as -> ->. left.
      unfold other_key in Hk. apply andb_prop in Hk as [Hw Hs].
      apply negb_true_iff in Hw. apply negb_true_iff in Hs.
      unfold f in Ev. rewrite Hw, Hs in Ev. now injection Ev as <-.
    + right. now apply Hp.
Qed.

Lemma criteria_names_witness :
  normalizeCriteria lodash_4 []
    (Obj [("limit", int 5); ("where", Null); ("sort", Obj [("id", int 1)])])
  = Normal (Obj [("limit", int 5); ("where", Obj []);
                 ("sort", Obj [("_id", int 1)])]) /\
  exists out,
    Obj [("limit", int 5); ("where", Obj []); ("sort", Obj [("_id", int 1)])]
    = Obj out /\
    List.map fst out = ["limit"; "where"; "sort"] /\
    forall k v,
      In (k, v)
        [("limit", int 5); ("where", Null); ("sort", Obj [("id", int 1)])] ->
      other_key k = true -> In (k, v) out.
Proof.
  split; [reflexivity|].
  exact (criteria_names lodash_4 []
           [("limit", int 5); ("where", Null); ("sort", Obj [("id", int 1)])]
           (Obj [("limit", int 5); ("where", Obj []);
                 ("sort", Obj [("_id", int 1)])]) eq_refl).
Defined.

(** ** [like] clauses whose expressions are not strings *)

Lemma parseLikeClauses_not_string (L : Lodash.version) (sch : Schema)
  (acc inh : list (string * value)) (v : value) (f : string) :
  Lodash.isString v = false -> String.eqb f "__proto__" = false ->
  parseLikeClauses L sch (Derived (Obj acc) inh) v (KStr f)
  = Normal (Derived (set (Obj acc) f (Obj [("like", v)])) inh).
Proof.
  intros Hv Hf. unfold parseLikeClauses.
  rewrite parseExpression_one by reflexivity.
  rewrite parseModifier_string_modifier_other
    by (try exact Hv; right; left; reflexivity).
  cbn [bind key_name]. unfold put. rewrite Hf. reflexivity.
Qed.

Lemma reduce_props_parseLikeClauses (L : Lodash.version) (sch : Schema)
  (fields acc inh : list (string * value)) :
  forallb (fun e => negb (Lodash.isString (snd e))) fields = true ->
  enumerated (List.map fst acc ++ List.map fst fields)%list = true ->
  Lodash.reduce_props (parseLikeClauses L sch) fields (Derived (Obj acc) inh)
  = Normal (Derived (Obj (acc ++ List.map like_entry fields)%list) inh).
Proof.
  revert acc. induction fields as [|[f v] fields IH]; intros acc Hs Hd.
  - cbn. now rewrite app_nil_r.
  - cbn [forallb snd] in Hs. apply andb_prop in Hs as [Hv Hs].
    apply negb_true_iff in Hv.
    cbn [List.map fst] in Hd.
    pose proof (enumerated_app _ _ Hd) as [_ [Hr _]].
    cbn [Lodash.reduce_props].
    rewrite (parseLikeClauses_not_string _ _ _ _ _ _ Hv)
      by (apply (enumerated_not_proto (f :: List.map fst fields));
          [exact Hr | now left]).
    cbn [bind]. rewrite (set_last _ _ _ _ Hd).
    rewrite IH; [now rewrite <- app_assoc | exact Hs |].
    rewrite map_app, <- app_assoc. exact Hd.
Qed.

(** Where a [like] clause has a field named [__proto__], the document of
    its expression becomes the prototype of the fields to merge, and it
    is these inherited properties that a lodash whose [_.extend] copies
    them puts in the output. *)
Example like_clause_proto :
  parseClause lodash_3 [] (Obj [("like", Obj [("__proto__", int 5)])])
  = Normal (Obj []) /\
  parseClause lodash_4 [] (Obj [("like", Obj [("__proto__", int 5)])])
  = Normal (Obj [("like", int 5)]).
Proof. split; reflexivity. Qed.

(** X27. A [like] clause, in any case of the key, over an object that
    lodash does not read as an array, whose fields are in the order of
    their enumeration and whose expressions are no strings, returns:
    each field gets the document [{ like: v }] of its expression [v],
    and these pairs are assigned to the output of the level in their
    order, over the fields that are already there. *)
Theorem like_clause_not_strings (L : Lodash.version)
  (parse : value -> completion value)
  (sch : Schema) (this obj : value) (key : string)
  (fields : list (string * value)) :
  toLowerCase key = "like" ->
  forallb (fun e => negb (Lodash.isString (snd e))) fields = true ->
  Lodash.array_length L fields = None ->
  enumerated (List.map fst fields) = true ->
  parseClausePair L parse sch this obj (Obj fields) (KStr key)
  = Normal (fold_left (fun o e => set o (fst e) (snd e))
              (List.map like_entry fields) obj).
Proof.
  intros Hk Hs Hl Hd. rewrite parseClausePair_like by exact Hk.
  cbn [Lodash.reduce]. rewrite Hl.
  rewrite (reduce_props_parseLikeClauses L sch fields [] [] Hs Hd).
  cbn [bind app]. unfold Lodash.extend. cbn [own inherited Lodash.own_props].
  assert (E : (if Lodash.extend_inherited L
               then (List.map like_entry fields
                     ++ filter (fun e => negb (Lodash.has_name
                                                 (List.map like_entry fields)
                                                 (fst e))) [])%list
               else List.map like_entry fields)
              = List.map like_entry fields).
  { destruct (Lodash.extend_inherited L); [|reflexivity].
    cbn [filter]. apply app_nil_r. }
  rewrite E. clear E. f_equal. revert obj.
  induction (List.map like_entry fields) as [|[k v] l IH]; intros obj;
    [reflexivity|].
  cbn [fold_left fst snd]. apply IH.
Qed.

Lemma like_clause_not_strings_witness :
  toLowerCase "LIKE" = "like" /\
  forallb (fun e => negb (Lodash.isString (snd e)))
    [("name", RegExp "^jo" "i"); ("age", int 5)] = true /\
  Lodash.array_length lodash_4 [("name", RegExp "^jo" "i"); ("age", int 5)]
  = None /\
  enumerated (List.map fst [("name", RegExp "^jo" "i"); ("age", int 5)])
  = true /\
  parseClausePair lodash_4 (parseClause lodash_4 []) [] Null
    (Obj [("age", int 1); ("city", Null)])
    (Obj [("name", RegExp "^jo" "i"); ("age", int 5)]) (KStr "LIKE")
  = Normal (Obj [("age", Obj [("like", int 5)]); ("city", Null);
                 ("name", Obj [("like", RegExp "^jo" "i")])]).
Proof.
  split; [reflexivity|]. split; [reflexivity|]. split; [reflexivity|].
  split; [reflexivity|].
  exact (like_clause_not_strings lodash_4 (parseClause lodash_4 []) [] Null
           (Obj [("age", int 1); ("city", Null)]) "LIKE"
           [("name", RegExp "^jo" "i"); ("age", int 5)]
           eq_refl eq_refl eq_refl eq_refl).
Defined.
